(** * MnConfig dev backend: resolution engine, merge and store operations

    A shallow embedding of [src/main.py].  The module keeps its documents in
    a Python list ([_store]) and its registry in a dictionary ([_registry]);
    here both are passed explicitly.  JSON payloads are a recursive tagged
    variant whose objects are finite maps ([gmap string json]): Python
    compares dictionaries without regard to key order, and so does [=] on
    [gmap]. *)

From Stdlib Require Import ZArith Ascii String Sorted.
From stdpp Require Import gmap strings list fin_maps.

#[local] Set Warnings "-register-all".
#[local] Open Scope Z_scope.
#[local] Open Scope string_scope.

(** ** JSON-like values ([Any] in the type annotations of the source) *)

Module Json.

Inductive json : Type :=
  | JNull
  | JBool (b : bool)
  | JNum (n : Z)
  | JStr (s : string)
  | JArr (xs : list json)
  | JObj (m : gmap string json).

(** [isinstance(x, dict)] *)
Definition is_dict (j : json) : bool :=
  match j with JObj _ => true | _ => false end.

(** [x is None] *)
Definition is_none (j : json) : bool :=
  match j with JNull => true | _ => false end.

(** [base.get(k)]: [None] when the key is absent. *)
Definition or_null (o : option json) : json := default JNull o.

Definition get (k : string) (j : json) : json :=
  match j with JObj m => or_null (m !! k) | _ => JNull end.

(** One iteration of [for k, v in override.items(): out[k] = ...], seen from
    the key [k]: [bv] is [base]'s binding and [f] is [deep_merge(_, v)] when
    [override] binds [k] to [v].  A key that [override] does not bind keeps
    the binding copied by [out = dict(base)]. *)
Definition merge_field (bv : option json) (f : option (json -> json)) : option json :=
  match f with
  | Some g => Some (g (or_null bv))
  | None => bv
  end.

(** [deep_merge] with its arguments swapped: the recursion descends into
    [override], the argument whose items the source iterates over. *)
Fixpoint merge_into (override : json) : json -> json :=
  match override with
  | JNull => fun base => base
  | JObj o =>
      let fs := merge_into <$> o in
      fun base =>
        match base with
        | JObj b => JObj (merge merge_field b fs)
        | _ => override
        end
  | _ => fun _ => override
  end.

(** [deep_merge(base, override)], main.py lines 87-96. *)
Definition deep_merge (base override : json) : json := merge_into override base.

(** The number of constructors of a value; the measure for induction. *)
Fixpoint json_size (j : json) : nat :=
  match j with
  | JObj m => S (map_fold (fun _ n acc => (n + acc)%nat) 0%nat (json_size <$> m))
  | JArr xs => S (list_sum (map json_size xs))
  | _ => 1%nat
  end.

(** Wherever [c] holds a mapping, [b] holds a mapping or nothing (null, or no
    binding at all) at the same position. *)
Fixpoint shape_under (c : json) : json -> bool :=
  match c with
  | JObj cm =>
      let fs := shape_under <$> cm in
      fun b =>
        match b with
        | JNull => true
        | JObj bm =>
            map_fold (fun k f acc => f (or_null (bm !! k)) && acc) true fs
        | _ => false
        end
  | _ => fun _ => true
  end.

Definition shape_compatible (b c : json) : bool := shape_under c b.

End Json.
Export Json.

(** ** Shell-style patterns: Python's [fnmatch.fnmatch]

    [match_route] delegates to the standard library's [fnmatch], which is
    not part of the repository.  The model follows [fnmatch.translate]: the
    pattern becomes a sequence of items ([*], [?], a bracketed character
    set, or a literal character) and the whole name has to match it.  On a
    POSIX system [os.path.normcase] is the identity, so names and patterns
    are compared case-sensitively. *)

Module Fnmatch.

Inductive tok : Type :=
  | TStar
  | TAny
  | TLit (c : ascii)
  | TSet (negated : bool) (ranges : list (ascii * ascii)).

(** Position of the first ["]"] in [s]. *)
Fixpoint find_close (s : list ascii) : option nat :=
  match s with
  | [] => None
  | c :: r => if Ascii.eqb c "]" then Some 0%nat else S <$> find_close r
  end.

(** The body of a character set: [x-y] is a range, any other character
    stands for itself. *)
Fixpoint parse_ranges (s : list ascii) : list (ascii * ascii) :=
  match s with
  | [] => []
  | x :: s1 =>
      match s1 with
      | "-"%char :: y :: s2 => (x, y) :: parse_ranges s2
      | _ => (x, x) :: parse_ranges s1
      end
  end.

(** [translate skip pat]: the items of [pat] after dropping its first
    [skip] characters (the characters of a set that was just read). *)
Fixpoint translate (skip : nat) (pat : list ascii) : list tok :=
  match pat with
  | [] => []
  | c :: r =>
      match skip with
      | S k => translate k r
      | O =>
          if Ascii.eqb c "*" then TStar :: translate 0 r
          else if Ascii.eqb c "?" then TAny :: translate 0 r
          else if Ascii.eqb c "[" then
            let '(neg, r1) :=
              match r with
              | "!"%char :: r' => (true, r')
              | _ => (false, r)
              end in
            let '(lead, r2) :=
              match r1 with
              | "]"%char :: r' => (["]"%char], r')
              | _ => ([], r1)
              end in
            match find_close r2 with
            | None => TLit c :: translate 0 r
            | Some k =>
                TSet neg (parse_ranges ((lead ++ take k r2)%list))
                  :: translate ((if neg then 1 else 0) + length lead + k + 1) r
            end
          else TLit c :: translate 0 r
      end
  end.

(** Consecutive [*] count as one. *)
Fixpoint compress (ts : list tok) : list tok :=
  match ts with
  | [] => []
  | TStar :: r =>
      match r with
      | TStar :: _ => compress r
      | _ => TStar :: compress r
      end
  | t :: r => t :: compress r
  end.

Definition in_range (c : ascii) (r : ascii * ascii) : bool :=
  (N_of_ascii r.1 <=? N_of_ascii c)%N && (N_of_ascii c <=? N_of_ascii r.2)%N.

(** Does the single-character item [t] accept [c]? *)
Definition tok_ok (t : tok) (c : ascii) : bool :=
  match t with
  | TStar => false
  | TAny => true
  | TLit x => Ascii.eqb x c
  | TSet neg rs => xorb neg (existsb (in_range c) rs)
  end.

(** The whole of [s] matches the items [ts]; a [*] takes any run of
    characters, whatever they are. *)
Fixpoint gmatch (ts : list tok) (s : list ascii) : bool :=
  match ts with
  | [] => match s with [] => true | _ => false end
  | TStar :: ts' =>
      (fix star (s : list ascii) : bool :=
         gmatch ts' s || match s with [] => false | _ :: s' => star s' end) s
  | t :: ts' =>
      match s with
      | [] => false
      | c :: s' => tok_ok t c && gmatch ts' s'
      end
  end.

Definition fnmatchcase (name pat : string) : bool :=
  gmatch (compress (translate 0 (list_ascii_of_string pat)))
         (list_ascii_of_string name).

Definition fnmatch (name pat : string) : bool := fnmatchcase name pat.

(** A pattern character that stands for itself. *)
Definition plain_char (c : ascii) : bool :=
  negb (Ascii.eqb c "*" || Ascii.eqb c "?" || Ascii.eqb c "[").

Definition plain (s : string) : bool := forallb plain_char (list_ascii_of_string s).

End Fnmatch.
Export Fnmatch.

(** ** Documents, registry and the operations of the service *)

Module Config.

(** [ConfigDoc], main.py lines 36-46.  [scopeType] is a free string in the
    source (['global'], ['route'], ['page'] by convention); [createdAt] is
    the clock reading, which no operation computes with. *)
Record ConfigDoc : Type := mkDoc {
  tenant : string;
  env : string;
  componentKey : string;
  scopeType : string;
  scopeKey : string;
  version : Z;
  value : json;
  createdAt : Z;
  createdBy : string
}.

(** [_registry]: component key to an entry with optional ["default"] and
    ["schema"] fields. *)
Abbreviation registry := (gmap string (gmap string json)).

(** A truthy optional string: neither [None] nor the empty string. *)
Definition truthy (o : option string) : bool :=
  match o with
  | Some s => negb (String.eqb s "")
  | None => false
  end.

(** [x or d] on an optional string. *)
Definition or_else (o : option string) (d : string) : string :=
  match o with
  | Some s => if String.eqb s "" then d else s
  | None => d
  end.

(** Python's [sorted(xs, key=...)]: stable, ascending. *)
Fixpoint insert_by {A} (le : A -> A -> bool) (x : A) (l : list A) : list A :=
  match l with
  | [] => [x]
  | y :: r => if le x y then x :: l else y :: insert_by le x r
  end.

Definition sorted_by {A} (le : A -> A -> bool) (l : list A) : list A :=
  foldr (insert_by le) [] l.

(** [default_for], main.py lines 99-101; the deep copy is the identity on
    immutable values. *)
Definition default_for (reg : registry) (component_key : string) : json :=
  match reg !! component_key with
  | Some entry =>
      if bool_decide (entry ≠ ∅) then
        match entry !! "default" with
        | Some d => d
        | None => JObj ∅
        end
      else JObj ∅
  | None => JObj ∅
  end.

(** *** Schema validation

    [Draft202012Validator] comes from the [jsonschema] package; the checks
    it performs, the order of two error paths and the rendering of a path
    are taken as given. *)
Record SchemaError : Type := mkErr {
  err_path : list (string + Z);
  err_message : string
}.

Record Draft202012Validator : Type := mkValidator {
  iter_errors : json -> json -> list SchemaError;
  path_le : list (string + Z) -> list (string + Z) -> bool;
  show_path : list (string + Z) -> string
}.

(** The f-string [f"{list(e.path)}: {e.message}"]. *)
Definition render_error (V : Draft202012Validator) (e : SchemaError) : string :=
  show_path V (err_path e) +:+ ": " +:+ err_message e.

(** [validate_value], main.py lines 104-113. *)
Definition validate_value (V : Draft202012Validator) (reg : registry)
    (component_key : string) (value : json) : option (list string) :=
  match reg !! component_key with
  | None => None
  | Some entry =>
      if bool_decide (entry = ∅) then None
      else
        match entry !! "schema" with
        | None => None
        | Some schema =>
            let errors :=
              sorted_by (fun a b => path_le V (err_path a) (err_path b))
                        (iter_errors V schema value) in
            match errors with
            | [] => None
            | _ => Some (map (render_error V) errors)
            end
        end
  end.

(** *** Specificity *)

Definition score (doc : ConfigDoc) : Z * Z :=
  if String.eqb (scopeType doc) "global" then (0, 0)
  else if String.eqb (scopeType doc) "page" then (1, Z.of_nat (String.length (scopeKey doc)))
  else if String.eqb (scopeType doc) "route" then (2, Z.of_nat (String.length (scopeKey doc)))
  else (0, 0).

(** Tuples compare lexicographically. *)
Definition tuple_le (a b : Z * Z) : bool :=
  (a.1 <? b.1)%Z || ((a.1 =? b.1)%Z && (a.2 <=? b.2)%Z).

(** [sort_scopes], main.py lines 116-128. *)
Definition sort_scopes (scopes : list ConfigDoc) : list ConfigDoc :=
  sorted_by (fun a b => tuple_le (score a) (score b)) scopes.

(** [match_route], main.py lines 131-133. *)
Definition match_route (pattern route : string) : bool := fnmatch route pattern.

(** *** Latest version per scope *)

Definition same_identity (t e c : string) (d : ConfigDoc) : bool :=
  String.eqb (tenant d) t && String.eqb (env d) e && String.eqb (componentKey d) c.

Definition scope_eqb (a b : string * string) : bool :=
  String.eqb a.1 b.1 && String.eqb a.2 b.2.

(** The dictionary [latest] keeps its keys in insertion order, and that
    order is the order of [list(latest.values())]. *)
Fixpoint dict_get (k : string * string) (l : list ((string * string) * ConfigDoc))
    : option ConfigDoc :=
  match l with
  | [] => None
  | (k', v) :: r => if scope_eqb k k' then Some v else dict_get k r
  end.

Fixpoint dict_set (k : string * string) (v : ConfigDoc)
    (l : list ((string * string) * ConfigDoc)) : list ((string * string) * ConfigDoc) :=
  match l with
  | [] => [(k, v)]
  | (k', v') :: r => if scope_eqb k k' then (k', v) :: r else (k', v') :: dict_set k v r
  end.

Definition scope_of (d : ConfigDoc) : string * string := (scopeType d, scopeKey d).

(** The body of the loop over [candidates]. *)
Definition latest_step (latest : list ((string * string) * ConfigDoc)) (d : ConfigDoc)
    : list ((string * string) * ConfigDoc) :=
  let key := scope_of d in
  match dict_get key latest with
  | None => dict_set key d latest
  | Some prev => if (version d >? version prev)%Z then dict_set key d latest else latest
  end.

Definition candidates_for (store : list ConfigDoc) (identity : string * string * string)
    : list ConfigDoc :=
  let '(t, e, c) := identity in List.filter (same_identity t e c) store.

(** [latest_versions_for], main.py lines 136-146. *)
Definition latest_versions_for (store : list ConfigDoc)
    (identity : string * string * string) : list ConfigDoc :=
  map snd (fold_left latest_step (candidates_for store identity) []).

(** *** Resolution *)

Definition apply_docs (effective : json) (docs : list ConfigDoc) : json :=
  fold_left (fun eff d => deep_merge eff (value d)) docs effective.

(** [effective_for_component], main.py lines 149-164. *)
Definition effective_for_component (reg : registry) (store : list ConfigDoc)
    (t e component_key : string) (route page : option string) : json :=
  let effective := default_for reg component_key in
  let docs := latest_versions_for store (t, e, component_key) in
  let globals_ := List.filter (fun d => String.eqb (scopeType d) "global") docs in
  let pages_ :=
    List.filter (fun d => String.eqb (scopeType d) "page" && truthy page
                          && bool_decide (Some (scopeKey d) = page)) docs in
  let routes_ :=
    List.filter (fun d => String.eqb (scopeType d) "route" && truthy route
                          && match route with
                             | Some r => match_route (scopeKey d) r
                             | None => false
                             end) docs in
  let effective := apply_docs effective (sort_scopes globals_) in
  let effective := apply_docs effective (sort_scopes pages_) in
  let effective := apply_docs effective (sort_scopes routes_) in
  effective.

(** *** Writes *)

(** The request body of an upsert; every field is optional. *)
Record Body : Type := mkBody {
  body_tenant : option string;
  body_env : option string;
  body_scopeType : option string;
  body_scopeKey : option string;
  body_value : option json;
  body_updatedBy : option string
}.

(** An upsert call: query parameters, body and the clock reading taken
    while it runs. *)
Record Upsert : Type := mkUpsert {
  tenant_q : option string;
  env_q : option string;
  body : Body;
  now : Z
}.

Inductive response : Type :=
  | Ok (version : Z)
  | ValidationError (details : list string).

Definition req_tenant (r : Upsert) : string :=
  default (or_else (tenant_q r) "default") (body_tenant (body r)).
Definition req_env (r : Upsert) : string :=
  default (or_else (env_q r) "dev") (body_env (body r)).
Definition req_scopeType (r : Upsert) : string :=
  default "global" (body_scopeType (body r)).
Definition req_scopeKey (r : Upsert) : string :=
  default "*" (body_scopeKey (body r)).
Definition req_value (r : Upsert) : json :=
  default (JObj ∅) (body_value (body r)).

Definition same_scope (t e c st sk : string) (d : ConfigDoc) : bool :=
  same_identity t e c d && String.eqb (scopeType d) st && String.eqb (scopeKey d) sk.

(** [max(xs, default=0)] *)
Definition max_default (xs : list Z) : Z :=
  match xs with
  | [] => 0
  | x :: r => fold_left Z.max r x
  end.

Definition next_version_for (store : list ConfigDoc) (t e c st sk : string) : Z :=
  max_default (map version (List.filter (same_scope t e c st sk) store)) + 1.

(** [upsert_component], main.py lines 219-258: the response and the store
    after the call. *)
Definition upsert_component (V : Draft202012Validator) (reg : registry)
    (store : list ConfigDoc) (component_key : string) (r : Upsert)
    : response * list ConfigDoc :=
  let t := req_tenant r in
  let e := req_env r in
  let scope_type := req_scopeType r in
  let scope_key := req_scopeKey r in
  let v := req_value r in
  match validate_value V reg component_key v with
  | Some (err :: errs) => (ValidationError (err :: errs), store)
  | _ =>
      let next_version := next_version_for store t e component_key scope_type scope_key in
      let doc := mkDoc t e component_key scope_type scope_key next_version v (now r)
                       (default "dev" (body_updatedBy (body r))) in
      (Ok next_version, (store ++ [doc])%list)
  end.

(** A sequence of upsert calls for one component, each on the store left by
    the previous one. *)
Fixpoint upsert_all (V : Draft202012Validator) (reg : registry)
    (store : list ConfigDoc) (component_key : string) (rs : list Upsert)
    : list response * list ConfigDoc :=
  match rs with
  | [] => ([], store)
  | r :: rs' =>
      let '(resp, store') := upsert_component V reg store component_key r in
      let '(resps, store'') := upsert_all V reg store' component_key rs' in
      (resp :: resps, store'')
  end.

(** [delete_component], main.py lines 270-280. *)
Definition delete_component (store : list ConfigDoc) (component_key t e : string)
    : list ConfigDoc :=
  List.filter (fun d => negb (same_identity t e component_key d)) store.

End Config.
Export Config.

(** ** Which document of a scope survives the reduction *)

Module Reduction.

(** [r] sits at some position of the scan, every earlier document of its
    scope has a smaller version and no later one has a greater version: the
    first document of its scope that reaches the greatest version. *)
Definition first_max (l : list ConfigDoc) (r : ConfigDoc) : Prop :=
  exists i : nat,
    l !! i = Some r /\
    forall (j : nat) d, l !! j = Some d -> scope_of d = scope_of r ->
      ((j < i)%nat -> version d < version r) /\
      ((i < j)%nat -> version d <= version r).

(** The reading with ties going to the document observed last: the last
    document of its scope that reaches the greatest version. *)
Definition last_max (l : list ConfigDoc) (r : ConfigDoc) : Prop :=
  exists i : nat,
    l !! i = Some r /\
    forall (j : nat) d, l !! j = Some d -> scope_of d = scope_of r ->
      ((j < i)%nat -> version d <= version r) /\
      ((i < j)%nat -> version d < version r).

(** What the loop of [latest_versions_for] maintains: [latest] after the
    documents [l] have been visited. *)
Definition latest_inv (latest : list ((string * string) * ConfigDoc))
    (l : list ConfigDoc) : Prop :=
  NoDup (map fst latest) /\
  (forall k r, dict_get k latest = Some r -> scope_of r = k /\ first_max l r) /\
  (forall d, In d l -> is_Some (dict_get (scope_of d) latest)).

End Reduction.
Export Reduction.

(** ** Sample data *)

Module Samples.

(** The three layers of the specificity example. *)
Definition layer_global : json := JObj {[ "a" := JNum 1; "b" := JNum 1 ]}.
Definition layer_page : json := JObj {[ "b" := JNum 2 ]}.
Definition layer_route : json := JObj {[ "b" := JNum 3; "c" := JNum 1 ]}.

(** Values that disagree on the kind of value held under ["k"]. *)
Definition nested_x : json := JObj {[ "k" := JObj {[ "x" := JNum 1 ]} ]}.
Definition scalar_k : json := JObj {[ "k" := JNum 5 ]}.
Definition nested_y : json := JObj {[ "k" := JObj {[ "y" := JNum 2 ]} ]}.

(** A store with documents of two components. *)
Definition shelf : list ConfigDoc :=
  [ mkDoc "acme" "dev" "header" "global" "*" 1 layer_global 10 "dev";
    mkDoc "acme" "dev" "footer" "global" "*" 1 layer_page 11 "dev";
    mkDoc "acme" "dev" "header" "page" "home" 1 layer_page 12 "dev" ].

(** A registry with a component that has a default and no schema, and one
    whose schema requires a title. *)
Definition sample_registry : registry :=
  {[ "banner" := {[ "default" := layer_global ]};
     "card" := {[ "schema" := JObj {[ "required" := JArr [JStr "title"] ]} ]} ]}.

(** A validator that knows the [required] keyword for the key ["title"]. *)
Definition title_validator : Draft202012Validator :=
  {| iter_errors := fun schema v =>
       match Json.get "required" schema, Json.get "title" v with
       | JArr [JStr "title"], JNull => [mkErr [] "'title' is a required property"]
       | _, _ => []
       end;
     path_le := fun _ _ => true;
     show_path := fun _ => "[]" |}.

Definition upsert_of (v : json) : Upsert :=
  {| tenant_q := Some "acme"; env_q := None;
     body := {| body_tenant := None; body_env := None;
                body_scopeType := Some "page"; body_scopeKey := Some "home";
                body_value := Some v; body_updatedBy := None |};
     now := 20 |}.

Definition untitled : Upsert := upsert_of (JObj {[ "color" := JStr "red" ]}).
Definition titled : Upsert := upsert_of (JObj {[ "title" := JStr "Hello" ]}).
Definition titled_again : Upsert := upsert_of (JObj {[ "title" := JStr "Hi" ]}).

(** Two documents of one scope with the same version, as a store loaded
    from a hand-edited file can hold them. *)
Definition tie_first : ConfigDoc :=
  mkDoc "acme" "dev" "header" "global" "*" 1 layer_global 10 "dev".
Definition tie_second : ConfigDoc :=
  mkDoc "acme" "dev" "header" "global" "*" 1 layer_page 11 "dev".
Definition tie_store : list ConfigDoc := [tie_first; tie_second].

(** The three documents of the specificity example, page document first. *)
Definition shop_store : list ConfigDoc :=
  [ mkDoc "acme" "dev" "header" "page" "home" 4 layer_page 11 "ops";
    mkDoc "acme" "dev" "header" "global" "*" 1 layer_global 10 "dev";
    mkDoc "acme" "dev" "header" "route" "/shop/*" 2 layer_route 12 "dev" ].

End Samples.
Export Samples.

(** ** The remaining endpoints *)

Module Endpoints.

(** One step of a lexicographic comparison: the outcome [c] of comparing
    the leading components decides, the remaining components on a tie. *)
Definition lex_le (c : comparison) (rest : bool) : bool :=
  match c with Lt => true | Gt => false | Eq => rest end.

(** The sort key of [get_history] is the tuple
    [(scopeType, scopeKey, version)]; tuples compare lexicographically and
    strings by code point. *)
Definition history_le (a b : ConfigDoc) : bool :=
  match String.compare (scopeType a) (scopeType b) with
  | Lt => true
  | Gt => false
  | Eq =>
      match String.compare (scopeKey a) (scopeKey b) with
      | Lt => true
      | Gt => false
      | Eq => (version a <=? version b)%Z
      end
  end.

(** [get_history], main.py lines 206-216; [list.sort] is stable. *)
Definition get_history (store : list ConfigDoc) (component_key t e : string)
    : list ConfigDoc :=
  sorted_by history_le (candidates_for store (t, e, component_key)).

(** The set [keys] of [effective_all] after its first loop. *)
Definition known_keys (reg : registry) (store : list ConfigDoc) (t e : string)
    : gset string :=
  fold_left
    (fun keys d =>
       if String.eqb (tenant d) t && String.eqb (env d) e
       then keys ∪ {[ componentKey d ]} else keys)
    store (dom reg).

(** [effective_all], main.py lines 167-176.  The keys are visited in sorted
    order; each is bound once, so the resulting mapping does not depend on
    that order. *)
Definition effective_all (reg : registry) (store : list ConfigDoc) (t e : string)
    (route page : option string) : gmap string json :=
  set_to_map (fun key => (key, effective_for_component reg store t e key route page))
             (known_keys reg store t e).

(** [delete_all], main.py lines 262-267. *)
Definition delete_all (store : list ConfigDoc) : list ConfigDoc := [].

(** The mutating calls of the service. *)
Inductive operation : Type :=
  | OpUpsert (component_key : string) (r : Upsert)
  | OpDeleteComponent (component_key t e : string)
  | OpDeleteAll.

Definition run_op (V : Draft202012Validator) (reg : registry)
    (store : list ConfigDoc) (op : operation) : list ConfigDoc :=
  match op with
  | OpUpsert ck r => (upsert_component V reg store ck r).2
  | OpDeleteComponent ck t e => delete_component store ck t e
  | OpDeleteAll => delete_all store
  end.

(** The store after a sequence of calls on an initially empty store. *)
Definition run_ops (V : Draft202012Validator) (reg : registry)
    (ops : list operation) : list ConfigDoc :=
  fold_left (run_op V reg) ops [].

End Endpoints.
Export Endpoints.

(** ** Store invariants *)

Module Invariants.

(** Same tenant, environment, component, scope type and scope key. *)
Definition same_key (a b : ConfigDoc) : bool :=
  same_scope (tenant a) (env a) (componentKey a) (scopeType a) (scopeKey a) b.

(** Along the store, the versions of one identity and scope increase
    strictly. *)
Fixpoint version_ordered (l : list ConfigDoc) : bool :=
  match l with
  | [] => true
  | d :: r =>
      forallb (fun d' => negb (same_key d d') || (version d <? version d')%Z) r
      && version_ordered r
  end.

(** [r] is the last document of its scope in the scan [l]. *)
Definition last_of_scope (l : list ConfigDoc) (r : ConfigDoc) : Prop :=
  exists i : nat,
    l !! i = Some r /\
    forall (j : nat) d, l !! j = Some d -> scope_of d = scope_of r -> (j <= i)%nat.


(** A value a document may carry without turning the result of a merge
    into something else than a mapping. *)
Definition dict_or_none (j : json) : bool := is_dict j || is_none j.

(** The documents [effective_for_component] selects for a route. *)
Definition routes_for (docs : list ConfigDoc) (route : option string) : list ConfigDoc :=
  List.filter (fun d => String.eqb (scopeType d) "route" && truthy route
                        && match route with
                           | Some r => match_route (scopeKey d) r
                           | None => false
                           end) docs.

End Invariants.
Export Invariants.

(** ** More sample data *)

Module MoreSamples.

(** A catch-all route document and a more specific one. *)
Definition catch_all_route : ConfigDoc :=
  mkDoc "acme" "dev" "header" "route" "*" 1 (JObj {[ "b" := JNum 9 ]}) 13 "dev".
Definition shop_route : ConfigDoc :=
  mkDoc "acme" "dev" "header" "route" "/shop/*" 2 layer_route 12 "dev".
Definition route_store : list ConfigDoc :=
  [ mkDoc "acme" "dev" "header" "global" "*" 1 layer_global 10 "dev";
    shop_route; catch_all_route ].

(** Documents for the component that has a registered default; one of them
    carries null. *)
Definition banner_store : list ConfigDoc :=
  [ mkDoc "acme" "dev" "banner" "global" "*" 1 (JObj {[ "c" := JNull ]}) 10 "dev";
    mkDoc "acme" "dev" "banner" "page" "home" 1 JNull 11 "dev" ].

(** A first upsert for the component with a registered default; the body
    names neither scope type nor scope key. *)
Definition first_banner : Upsert :=
  {| tenant_q := Some "acme"; env_q := Some "dev";
     body := {| body_tenant := None; body_env := None;
                body_scopeType := None; body_scopeKey := None;
                body_value := Some (JObj {[ "title" := JStr "Sale" ]});
                body_updatedBy := Some "ops" |};
     now := 30 |}.

(** Upserts, one of them rejected, around a deletion. *)
Definition sample_ops : list operation :=
  [ OpUpsert "card" titled; OpUpsert "card" untitled; OpUpsert "card" titled_again;
    OpUpsert "banner" first_banner; OpDeleteComponent "banner" "acme" "dev";
    OpUpsert "card" titled ].

End MoreSamples.
Export MoreSamples.

(** * Properties *)

(** ** Deep merge *)

Section DeepMerge.

Implicit Types (a b c base override : json) (m bm cm : gmap string json).

Lemma deep_merge_obj bm om :
  deep_merge (JObj bm) (JObj om)
  = JObj (merge merge_field bm (merge_into <$> om)).
Proof. reflexivity. Qed.

(** The binding of one key after merging two mappings, as the loop body
    [out[k] = deep_merge(base.get(k), v)] computes it. *)
Lemma lookup_deep_merge bm om k :
  merge merge_field bm (merge_into <$> om) !! k
  = match om !! k with
    | Some v => Some (deep_merge (or_null (bm !! k)) v)
    | None => bm !! k
    end.
Proof.
  rewrite lookup_merge, lookup_fmap.
  destruct (om !! k) as [v|], (bm !! k) as [w|]; reflexivity.
Qed.

Lemma deep_merge_null_l override : deep_merge JNull override = override.
Proof. by destruct override. Qed.

Lemma deep_merge_null_r base : deep_merge base JNull = base.
Proof. reflexivity. Qed.

Lemma deep_merge_replace base override :
  is_none override = false ->
  is_dict base && is_dict override = false ->
  deep_merge base override = override.
Proof. destruct override, base; simpl; congruence. Qed.

Lemma json_size_lookup m k v :
  m !! k = Some v -> (json_size v < json_size (JObj m))%nat.
Proof.
  intros Hk. simpl.
  rewrite (map_fold_delete_L _ _ k (json_size v) (json_size <$> m)).
  - lia.
  - intros; lia.
  - by rewrite lookup_fmap, Hk.
Qed.

(** Induction on a value through the bindings of a mapping. *)
Lemma json_obj_ind (P : json -> Prop) :
  (forall j, (forall m k v, j = JObj m -> m !! k = Some v -> P v) -> P j) ->
  forall j, P j.
Proof.
  intros step j.
  remember (json_size j) as n eqn:Hn. revert j Hn.
  induction (lt_wf n) as [n _ IH]. intros j ->.
  apply step. intros m k v -> Hk.
  eapply IH; [|reflexivity]. by eapply json_size_lookup.
Qed.

Lemma shape_compatible_obj b cm :
  shape_compatible b (JObj cm) = true <->
  b = JNull \/
  exists bm, b = JObj bm /\
    forall k v, cm !! k = Some v -> shape_compatible (or_null (bm !! k)) v = true.
Proof.
  unfold shape_compatible at 1. simpl.
  destruct b as [| | | | |bm]; try (split; [discriminate | intros [?|(?&?&?)]; discriminate]).
  { split; [by left | done]. }
  rewrite map_fold_fmap.
  split.
  - intros H. right. exists bm. split; [done|]. revert H.
    apply (map_fold_weak_ind
      (fun (r : bool) (m : gmap string json) =>
         r = true -> forall k v, m !! k = Some v ->
                     shape_compatible (or_null (bm !! k)) v = true)).
    + intros _ k v. by rewrite lookup_empty.
    + intros i x m r Hi IH Hr k v Hk.
      apply andb_true_iff in Hr as [Hx Hr].
      destruct (decide (i = k)) as [->|Hne].
      * rewrite lookup_insert_eq in Hk. by injection Hk as <-.
      * rewrite lookup_insert_ne in Hk by done. by eapply IH.
  - intros [?|(bm'&[= <-]&H)]; [discriminate|]. revert H.
    apply (map_fold_weak_ind
      (fun (r : bool) (m : gmap string json) =>
         (forall k v, m !! k = Some v ->
                      shape_compatible (or_null (bm !! k)) v = true) -> r = true)).
    + done.
    + intros i x m r Hi IH H. apply andb_true_iff. split.
      * apply (H i x). by rewrite lookup_insert_eq.
      * apply IH. intros k v Hk. apply H.
        rewrite lookup_insert_ne; [done|]. intros ->. congruence.
Qed.

Lemma shape_compatible_leaf b c : is_dict c = false -> shape_compatible b c = true.
Proof. by destruct c. Qed.

(** The grouping of two merges does not matter as long as the middle value
    never puts a scalar or an array where the last one has a mapping. *)
Lemma deep_merge_assoc_compatible c :
  forall a b, shape_compatible b c = true ->
  deep_merge (deep_merge a b) c = deep_merge a (deep_merge b c).
Proof.
  induction c as [c IH] using json_obj_ind. intros a b Hbc.
  destruct c as [| | | | |cm]; try by destruct b.
  apply shape_compatible_obj in Hbc as [->|(bm&->&Hbm)].
  { by rewrite deep_merge_null_r, deep_merge_null_l. }
  destruct a as [| | | | |am]; try reflexivity.
  rewrite !deep_merge_obj. f_equal. apply map_eq. intros k.
  rewrite !lookup_deep_merge.
  destruct (cm !! k) as [v|] eqn:Hc; [|reflexivity].
  f_equal. specialize (Hbm k v Hc).
  destruct (bm !! k) as [w|] eqn:Hb; simpl.
  - by eapply IH.
  - by rewrite deep_merge_null_l.
Qed.

End DeepMerge.

(** C2: merging with a null override returns the base; two mappings merge
    into a mapping over the union of their keys, where a key bound on both
    sides gets the recursive merge, a key of the base alone keeps its value
    and a key of the override alone gets the override's value; in any other
    pairing the override replaces the base. *)
Theorem deep_merge_cases :
  (forall base, deep_merge base JNull = base) /\
  (forall bm om, exists m,
      deep_merge (JObj bm) (JObj om) = JObj m /\
      dom m = dom bm ∪ dom om /\
      forall k, m !! k =
        match bm !! k, om !! k with
        | Some bv, Some ov => Some (deep_merge bv ov)
        | Some bv, None => Some bv
        | None, Some ov => Some ov
        | None, None => None
        end) /\
  (forall base override,
      is_none override = false ->
      is_dict base && is_dict override = false ->
      deep_merge base override = override).
Proof.
  split; [exact deep_merge_null_r|]. split; [|exact deep_merge_replace].
  intros bm om. eexists. split; [apply deep_merge_obj|].
  assert (Hk : forall k,
    merge merge_field bm (merge_into <$> om) !! k =
      match bm !! k, om !! k with
      | Some bv, Some ov => Some (deep_merge bv ov)
      | Some bv, None => Some bv
      | None, Some ov => Some ov
      | None, None => None
      end).
  { intros k. rewrite lookup_deep_merge.
    destruct (bm !! k), (om !! k); simpl; by rewrite ?deep_merge_null_l. }
  split; [|exact Hk].
  apply set_eq. intros k.
  rewrite elem_of_union, !elem_of_dom, Hk.
  destruct (bm !! k), (om !! k); split;
    first [ by eauto | by intros [[? [=]]|[? [=]]] | by intros [? [=]] ].
Qed.

Lemma deep_merge_cases_witness :
  deep_merge (JObj {[ "a" := JNum 1 ]}) (JArr [JNum 2]) = JArr [JNum 2].
Proof.
  apply (proj2 (proj2 deep_merge_cases)); reflexivity.
Defined.

(** C3, as amended: merging three values gives the same result under both
    groupings whenever the middle value has a mapping or nothing at every
    position where the last value has a mapping. *)
Theorem deep_merge_assoc_when_compatible a b c :
  shape_compatible b c = true ->
  deep_merge (deep_merge a b) c = deep_merge a (deep_merge b c).
Proof. intros H. by apply deep_merge_assoc_compatible. Qed.

Lemma deep_merge_assoc_when_compatible_witness :
  shape_compatible layer_page layer_route = true /\
  deep_merge (deep_merge layer_global layer_page) layer_route
  = deep_merge layer_global (deep_merge layer_page layer_route).
Proof.
  split; [reflexivity|].
  apply (deep_merge_assoc_when_compatible layer_global layer_page layer_route).
  reflexivity.
Defined.

(** C3 as stated fails: a scalar in the middle value discards what the
    first value holds under the same key, but only when it is merged first. *)
Lemma deep_merge_not_associative :
  deep_merge (deep_merge nested_x scalar_k) nested_y
  <> deep_merge nested_x (deep_merge scalar_k nested_y).
Proof.
  intros H.
  apply (f_equal (fun j => Json.get "x" (Json.get "k" j))) in H.
  vm_compute in H. discriminate H.
Qed.

(** ** Route patterns *)

Section RoutePatterns.

Implicit Types (ts : list tok) (s p : list ascii).

Lemma list_ascii_of_string_app (x y : string) :
  list_ascii_of_string (x +:+ y)
  = (list_ascii_of_string x ++ list_ascii_of_string y)%list.
Proof. induction x as [|c x IH]; simpl; [done|by rewrite IH]. Qed.

Lemma list_ascii_of_string_inj (x y : string) :
  list_ascii_of_string x = list_ascii_of_string y -> x = y.
Proof.
  intros H. rewrite <- (string_of_list_ascii_of_string x),
    <- (string_of_list_ascii_of_string y). by rewrite H.
Qed.

(** A [*] followed by [ts] matches exactly the strings that have a suffix
    matching [ts]; the run it absorbs is unconstrained. *)
Lemma gmatch_star ts s :
  gmatch (TStar :: ts) s = true <->
  exists run rest, s = (run ++ rest)%list /\ gmatch ts rest = true.
Proof.
  simpl. induction s as [|c s IH].
  - rewrite orb_false_r. split.
    + intros H. by exists [], [].
    + intros (run & rest & Hs & H). symmetry in Hs.
      apply app_eq_nil in Hs as [-> ->]. done.
  - rewrite orb_true_iff, IH. split.
    + intros [H|(run & rest & -> & H)].
      * by exists [], (c :: s).
      * by exists (c :: run), rest.
    + intros (run & rest & Hs & H). destruct run as [|c' run]; simpl in Hs.
      * left. by rewrite Hs.
      * injection Hs as -> ->. right. by exists run, rest.
Qed.

Lemma gmatch_star_only s : gmatch [TStar] s = true.
Proof. apply gmatch_star. exists s, []. by rewrite app_nil_r. Qed.

Lemma gmatch_literal p ts s :
  gmatch (map TLit p ++ ts) s = true <->
  exists rest, s = (p ++ rest)%list /\ gmatch ts rest = true.
Proof.
  revert s. induction p as [|c p IH]; intros s; simpl.
  - split; [by exists s|by intros (rest & -> & H)].
  - destruct s as [|d s].
    + split; [done|by intros (? & ? & _)].
    + rewrite andb_true_iff, IH, Ascii.eqb_eq. split.
      * intros [-> (rest & -> & H)]. by exists rest.
      * intros (rest & [= -> ->] & H). eauto.
Qed.

Lemma translate_plain p rest :
  forallb plain_char p = true ->
  translate 0 (p ++ rest) = (map TLit p ++ translate 0 rest)%list.
Proof.
  induction p as [|c p IH]; [done|]. simpl. intros H.
  apply andb_true_iff in H as [Hc Hp]. unfold plain_char in Hc.
  apply negb_true_iff, orb_false_iff in Hc as [Hc H3].
  apply orb_false_iff in Hc as [H1 H2].
  rewrite H1, H2, H3. by rewrite IH.
Qed.

Lemma compress_literal p ts :
  compress (map TLit p ++ ts) = (map TLit p ++ compress ts)%list.
Proof. induction p as [|c p IH]; simpl; [done|by rewrite IH]. Qed.

Lemma match_route_plain_star (prefix route : string) :
  plain prefix = true ->
  match_route (prefix +:+ "*") route = true <->
  exists rest, route = prefix +:+ rest.
Proof.
  intros Hp. unfold match_route, fnmatch, fnmatchcase.
  rewrite list_ascii_of_string_app, translate_plain by exact Hp.
  rewrite compress_literal, gmatch_literal. simpl. split.
  - intros (rest & Hr & _). exists (string_of_list_ascii rest).
    apply list_ascii_of_string_inj.
    by rewrite list_ascii_of_string_app, list_ascii_of_string_of_list_ascii.
  - intros (rest & ->). exists (list_ascii_of_string rest). split.
    + apply list_ascii_of_string_app.
    + apply (gmatch_star_only (list_ascii_of_string rest)).
Qed.

End RoutePatterns.

(** C8: in a route pattern [*] matches any run of characters, [/] included:
    a pattern made of a literal prefix and a final [*] matches exactly the
    routes that start with that prefix, and a [*] item in front of other
    items matches whenever some suffix matches them; so ["/products/*"] matches
    ["/products/shoes"] and ["/products/shoes/42"] but not
    ["/product/shoes"]. *)
Theorem match_route_star_crosses_segments :
  (forall prefix route : string,
      plain prefix = true ->
      match_route (prefix +:+ "*") route = true <->
      exists rest, route = prefix +:+ rest) /\
  (forall ts s,
      gmatch (TStar :: ts) s = true <->
      exists run rest, s = (run ++ rest)%list /\ gmatch ts rest = true) /\
  match_route "/products/*" "/products/shoes" = true /\
  match_route "/products/*" "/products/shoes/42" = true /\
  match_route "/products/*" "/product/shoes" = false.
Proof.
  split; [exact match_route_plain_star|]. split; [exact gmatch_star|].
  by vm_compute.
Qed.

Lemma match_route_star_crosses_segments_witness :
  plain "/shop/" = true /\
  (match_route ("/shop/" +:+ "*") "/shop/a/b" = true <->
   exists rest, "/shop/a/b" = "/shop/" +:+ rest).
Proof.
  split; [reflexivity|].
  apply (proj1 match_route_star_crosses_segments "/shop/" "/shop/a/b").
  reflexivity.
Defined.

(** ** The document store *)

Section Store.

Implicit Types (store l : list ConfigDoc) (d : ConfigDoc) (reg : registry).

Lemma same_identity_true t e c d :
  same_identity t e c d = true <->
  (tenant d, env d, componentKey d) = (t, e, c).
Proof.
  unfold same_identity. rewrite !andb_true_iff, !String.eqb_eq.
  split; [by intros [[-> ->] ->]|by intros [= -> -> ->]].
Qed.

Lemma same_identity_false t e c d :
  same_identity t e c d = false <->
  (tenant d, env d, componentKey d) <> (t, e, c).
Proof.
  rewrite <- same_identity_true. by destruct (same_identity t e c d).
Qed.

Lemma same_scope_true t e c st sk d :
  same_scope t e c st sk d = true <->
  (tenant d, env d, componentKey d) = (t, e, c) /\ scope_of d = (st, sk).
Proof.
  unfold same_scope, scope_of.
  rewrite !andb_true_iff, !String.eqb_eq, same_identity_true.
  split; [by intros [[-> ->] ->]|by intros [-> [= -> ->]]].
Qed.

Lemma filter_filter_implied {A} (f g : A -> bool) (xs : list A) :
  (forall x, f x = true -> g x = true) ->
  List.filter f (List.filter g xs) = List.filter f xs.
Proof.
  intros Hfg. induction xs as [|x xs IH]; [done|]. simpl.
  destruct (g x) eqn:Hg; simpl.
  - by rewrite IH.
  - destruct (f x) eqn:Hf; [|done]. apply Hfg in Hf. congruence.
Qed.

Lemma filter_none {A} (f : A -> bool) (xs : list A) :
  (forall x, f x = false) -> List.filter f xs = [].
Proof.
  intros Hf. induction xs as [|x xs IH]; [done|]. simpl. by rewrite Hf.
Qed.

Lemma filter_all {A} (f : A -> bool) (xs : list A) :
  (forall x, In x xs -> f x = true) -> List.filter f xs = xs.
Proof.
  induction xs as [|x xs IH]; [done|]. intros Hf. simpl.
  rewrite Hf by (by left). f_equal. apply IH. intros y Hy. apply Hf. by right.
Qed.

End Store.

(** C9: deleting a component removes exactly the documents of the given
    tenant, environment and component key; the documents of every other
    identity are the same after the call, in the same order. *)
Theorem delete_component_isolation (store : list ConfigDoc) (ck t e : string) :
  (forall d, In d (delete_component store ck t e) <->
             In d store /\ (tenant d, env d, componentKey d) <> (t, e, ck)) /\
  (forall t' e' c', (t', e', c') <> (t, e, ck) ->
     candidates_for (delete_component store ck t e) (t', e', c')
     = candidates_for store (t', e', c')).
Proof.
  split.
  - intros d. unfold delete_component.
    rewrite filter_In, negb_true_iff, same_identity_false. done.
  - intros t' e' c' Hne. unfold candidates_for, delete_component.
    apply filter_filter_implied. intros d Hd.
    apply same_identity_true in Hd. apply negb_true_iff, same_identity_false.
    congruence.
Qed.

Lemma delete_component_isolation_witness :
  ("acme", "dev", "footer") <> ("acme", "dev", "header") /\
  candidates_for (delete_component shelf "header" "acme" "dev") ("acme", "dev", "footer")
  = candidates_for shelf ("acme", "dev", "footer").
Proof.
  split; [discriminate|].
  apply (proj2 (delete_component_isolation shelf "header" "acme" "dev")).
  discriminate.
Defined.

(** ** Resolution with little or no context *)

Section Resolution.

Implicit Types (store : list ConfigDoc) (reg : registry).

Lemma latest_versions_for_no_candidates store identity :
  candidates_for store identity = [] -> latest_versions_for store identity = [].
Proof. unfold latest_versions_for. by intros ->. Qed.

Lemma default_for_registered reg ck (entry : gmap string json) dflt :
  reg !! ck = Some entry -> entry !! "default" = Some dflt ->
  default_for reg ck = dflt.
Proof.
  intros Hreg Hd. unfold default_for. rewrite Hreg.
  rewrite bool_decide_eq_true_2; [by rewrite Hd|].
  intros ->. by rewrite lookup_empty in Hd.
Qed.

Lemma default_for_unknown reg ck : reg !! ck = None -> default_for reg ck = JObj ∅.
Proof. unfold default_for. by intros ->. Qed.

End Resolution.

(** C10: an empty page id is treated like an absent one and an empty route
    like an absent one; with both empty only the default and the global
    documents contribute. *)
Theorem empty_context_is_absent (reg : registry) (store : list ConfigDoc)
    (t e ck : string) (route page : option string) :
  effective_for_component reg store t e ck route (Some "")
  = effective_for_component reg store t e ck route None /\
  effective_for_component reg store t e ck (Some "") page
  = effective_for_component reg store t e ck None page /\
  effective_for_component reg store t e ck (Some "") (Some "")
  = apply_docs (default_for reg ck)
      (sort_scopes (List.filter (fun d => String.eqb (scopeType d) "global")
                                (latest_versions_for store (t, e, ck)))).
Proof.
  unfold effective_for_component. repeat split.
  - f_equal. f_equal. f_equal. apply filter_ext. intros d. simpl.
    by rewrite andb_false_r.
  - f_equal. f_equal. apply filter_ext. intros d. simpl.
    by rewrite andb_false_r.
  - rewrite (filter_none (fun d => _ && truthy (Some "") && bool_decide _)),
      (filter_none (fun d => _ && truthy (Some "") && match_route _ _)).
    + reflexivity.
    + intros d. simpl. by rewrite andb_false_r.
    + intros d. simpl. by rewrite andb_false_r.
Qed.

(** C7: with no stored document for the identity, a component with a
    registered default resolves to that default, and a component without a
    registry entry resolves to the empty mapping. *)
Theorem resolve_default_baseline (reg : registry) (store : list ConfigDoc)
    (t e ck : string) (route page : option string) :
  candidates_for store (t, e, ck) = [] ->
  (forall (entry : gmap string json) dflt,
      reg !! ck = Some entry -> entry !! "default" = Some dflt ->
      effective_for_component reg store t e ck route page = dflt) /\
  (reg !! ck = None ->
      effective_for_component reg store t e ck route page = JObj ∅).
Proof.
  intros Hnone. unfold effective_for_component.
  rewrite (latest_versions_for_no_candidates _ _ Hnone). simpl. split.
  - intros entry dflt Hreg Hd. by apply default_for_registered with entry.
  - apply default_for_unknown.
Qed.

Lemma resolve_default_baseline_witness :
  effective_for_component sample_registry shelf "acme" "dev" "banner"
      (Some "/shop/42") (Some "home") = layer_global /\
  effective_for_component sample_registry shelf "acme" "dev" "sidebar"
      (Some "/shop/42") (Some "home") = JObj ∅.
Proof.
  pose proof (resolve_default_baseline sample_registry shelf "acme" "dev" "banner"
                (Some "/shop/42") (Some "home") eq_refl) as [Hb _].
  pose proof (resolve_default_baseline sample_registry shelf "acme" "dev" "sidebar"
                (Some "/shop/42") (Some "home") eq_refl) as [_ Hs].
  split.
  - apply (Hb {[ "default" := layer_global ]}); reflexivity.
  - apply Hs. reflexivity.
Defined.

(** ** Upserts *)

Section Upserts.

Context (V : Draft202012Validator) (reg : registry).
Implicit Types (store : list ConfigDoc) (r : Upsert) (rs : list Upsert).

Lemma insert_by_perm {A} (le : A -> A -> bool) (x : A) (l : list A) :
  insert_by le x l ≡ₚ x :: l.
Proof.
  induction l as [|y l IH]; simpl; [done|].
  destruct (le x y); [done|]. rewrite IH. apply Permutation_swap.
Qed.

(** Sorting keeps every element. *)
Lemma sorted_by_perm {A} (le : A -> A -> bool) (l : list A) : sorted_by le l ≡ₚ l.
Proof.
  induction l as [|x l IH]; simpl; [done|].
  by rewrite insert_by_perm, IH.
Qed.

Lemma sorted_by_singleton {A} (le : A -> A -> bool) (x : A) : sorted_by le [x] = [x].
Proof. reflexivity. Qed.

Lemma validate_value_some ck v errs :
  validate_value V reg ck v = Some errs ->
  errs <> [] /\
  exists (entry : gmap string json) schema,
    reg !! ck = Some entry /\ entry !! "schema" = Some schema /\
    errs = map (render_error V)
             (sorted_by (fun a b => path_le V (err_path a) (err_path b))
                        (iter_errors V schema v)).
Proof.
  unfold validate_value. destruct (reg !! ck) as [entry|] eqn:Hreg; [|done].
  case_bool_decide; [done|].
  destruct (entry !! "schema") as [schema|] eqn:Hschema; [|done].
  destruct (sorted_by _ _) as [|x xs] eqn:Hs; [done|].
  intros [= <-]. split; [done|]. exists entry, schema. by rewrite Hs.
Qed.

Lemma validate_value_no_schema ck v :
  (forall entry : gmap string json, reg !! ck = Some entry -> entry !! "schema" = None) ->
  validate_value V reg ck v = None.
Proof.
  intros H. unfold validate_value. destruct (reg !! ck) as [entry|] eqn:Hreg; [|done].
  case_bool_decide; [done|]. by rewrite (H entry eq_refl).
Qed.

Lemma upsert_component_rejected store ck r errs :
  validate_value V reg ck (req_value r) = Some errs ->
  upsert_component V reg store ck r = (ValidationError errs, store).
Proof.
  intros Hv. unfold upsert_component. rewrite Hv.
  apply validate_value_some in Hv as [Hne _]. by destruct errs.
Qed.

Lemma upsert_component_accepted store ck r :
  validate_value V reg ck (req_value r) = None ->
  upsert_component V reg store ck r
  = let n := next_version_for store (req_tenant r) (req_env r) ck
                 (req_scopeType r) (req_scopeKey r) in
    (Ok n,
     (store ++ [mkDoc (req_tenant r) (req_env r) ck (req_scopeType r) (req_scopeKey r)
                  n (req_value r) (now r) (default "dev" (body_updatedBy (body r)))])%list).
Proof. intros Hv. unfold upsert_component. by rewrite Hv. Qed.

Lemma fold_left_max_le (xs : list Z) (x : Z) : (x <= fold_left Z.max xs x)%Z.
Proof.
  revert x. induction xs as [|y xs IH]; intros x; simpl; [lia|].
  specialize (IH (Z.max x y)). lia.
Qed.

Lemma fold_left_max_in (xs : list Z) (x : Z) : In (fold_left Z.max xs x) (x :: xs).
Proof.
  revert x. induction xs as [|y xs IH]; intros x; simpl; [by left|].
  destruct (IH (Z.max x y)) as [H|H]; [|by right; right].
  destruct (Z.max_spec x y) as [[_ Hm]|[_ Hm]]; rewrite Hm in *; auto.
Qed.

Lemma fold_left_max_ub (xs : list Z) (x y : Z) :
  In y (x :: xs) -> (y <= fold_left Z.max xs x)%Z.
Proof.
  revert x. induction xs as [|z xs IH]; intros x; simpl.
  - intros [->|[]]. lia.
  - intros [->|[->|H]].
    + pose proof (fold_left_max_le xs (Z.max y z)). lia.
    + pose proof (fold_left_max_le xs (Z.max x y)). lia.
    + apply IH. by right.
Qed.

(** [max_default] is Python's [max(xs, default=0)]. *)
Lemma max_default_spec (xs : list Z) :
  (xs = [] /\ max_default xs = 0%Z) \/
  (In (max_default xs) xs /\ forall x, In x xs -> (x <= max_default xs)%Z).
Proof.
  destruct xs as [|x xs]; [by left|]. right. split.
  - apply fold_left_max_in.
  - intros y. apply fold_left_max_ub.
Qed.

Lemma max_default_snoc (xs : list Z) (x : Z) :
  (max_default xs <= x)%Z -> max_default (xs ++ [x]) = x.
Proof.
  destruct xs as [|y xs]; [done|]. simpl.
  rewrite fold_left_app. simpl. lia.
Qed.

Lemma upsert_all_from store ck t e st sk rs (n : nat) :
  max_default (map version (List.filter (same_scope t e ck st sk) store)) = Z.of_nat n ->
  Forall (fun r =>
            (req_tenant r, req_env r, req_scopeType r, req_scopeKey r) = (t, e, st, sk) /\
            validate_value V reg ck (req_value r) = None) rs ->
  (upsert_all V reg store ck rs).1
  = map (fun k => Ok (Z.of_nat k)) (seq (S n) (length rs)).
Proof.
  intros Hmax Hrs. revert store n Hmax.
  induction Hrs as [|r rs [[= Ht He Hst Hsk] Hv] _ IH]; intros store n Hmax; [done|].
  simpl. rewrite (upsert_component_accepted _ _ _ Hv). simpl.
  rewrite Ht, He, Hst, Hsk.
  assert (Hnext : next_version_for store t e ck st sk = Z.of_nat (S n)).
  { unfold next_version_for. rewrite Hmax. lia. }
  rewrite Hnext.
  match goal with |- context [upsert_all V reg ?s ck rs] =>
    specialize (IH s (S n)); destruct (upsert_all V reg s ck rs) as [resps s'] end.
  simpl in *. f_equal. apply IH.
  rewrite List.filter_app, map_app. simpl.
  replace (same_scope t e ck st sk _) with true
    by (symmetry; apply same_scope_true; done).
  simpl. apply max_default_snoc. lia.
Qed.

End Upserts.

(** C5: an upsert whose value fails validation answers with the validation
    error carrying every violation the validator reports, in path order, and
    leaves the store (hence every resolution) as it was; an upsert whose
    value passes validation, as any value does for a component without a
    schema, appends exactly one document. *)
Theorem upsert_rejection_atomic (V : Draft202012Validator) (reg : registry)
    (store : list ConfigDoc) (ck : string) (r : Upsert) :
  (forall errs, validate_value V reg ck (req_value r) = Some errs ->
     errs <> [] /\
     (exists (entry : gmap string json) schema errors,
         reg !! ck = Some entry /\ entry !! "schema" = Some schema /\
         errors = sorted_by (fun a b => path_le V (err_path a) (err_path b))
                            (iter_errors V schema (req_value r)) /\
         errors ≡ₚ iter_errors V schema (req_value r) /\
         errs = map (render_error V) errors) /\
     upsert_component V reg store ck r = (ValidationError errs, store) /\
     (forall t e c st sk,
        next_version_for (upsert_component V reg store ck r).2 t e c st sk
        = next_version_for store t e c st sk) /\
     (forall t e c route page,
        effective_for_component reg (upsert_component V reg store ck r).2 t e c route page
        = effective_for_component reg store t e c route page)) /\
  (validate_value V reg ck (req_value r) = None ->
     exists doc,
       upsert_component V reg store ck r = (Ok (version doc), (store ++ [doc])%list) /\
       (tenant doc, env doc, componentKey doc, scopeType doc, scopeKey doc)
       = (req_tenant r, req_env r, ck, req_scopeType r, req_scopeKey r) /\
       value doc = req_value r) /\
  ((forall entry : gmap string json, reg !! ck = Some entry -> entry !! "schema" = None) ->
     validate_value V reg ck (req_value r) = None).
Proof.
  split; [|split].
  - intros errs Hv.
    pose proof (upsert_component_rejected V reg store ck r errs Hv) as Hup.
    apply validate_value_some in Hv as (Hne & entry & schema & Hreg & Hs & ->).
    split; [done|]. split; [|split; [done|split; by rewrite Hup]].
    exists entry, schema. eexists. repeat split; try done. apply sorted_by_perm.
  - intros Hv. rewrite (upsert_component_accepted V reg store ck r Hv).
    simpl. eexists (mkDoc _ _ _ _ _ _ _ _ _). split; [reflexivity|]. done.
  - apply validate_value_no_schema.
Qed.

Lemma upsert_rejection_atomic_witness :
  upsert_component title_validator sample_registry shelf "card" untitled
  = (ValidationError ["[]: 'title' is a required property"], shelf) /\
  exists doc,
    upsert_component title_validator sample_registry shelf "card" titled
    = (Ok (version doc), (shelf ++ [doc])%list).
Proof.
  pose proof (upsert_rejection_atomic title_validator sample_registry shelf "card" untitled)
    as (Hbad & _ & _).
  pose proof (upsert_rejection_atomic title_validator sample_registry shelf "card" titled)
    as (_ & Hok & _).
  split.
  - apply (Hbad ["[]: 'title' is a required property"]). reflexivity.
  - destruct (Hok eq_refl) as (doc & Hdoc & _). by exists doc.
Defined.

(** C4: starting from a store without documents for an identity and scope,
    a sequence of accepted upserts for that identity and scope is answered
    with the versions 1, 2, ..., N in order; every accepted upsert answers
    with one more than the greatest stored version of its identity and
    scope, or with 1 when there is none. *)
Theorem upsert_versions_sequential (V : Draft202012Validator) (reg : registry)
    (store : list ConfigDoc) (ck t e st sk : string) (rs : list Upsert) :
  List.filter (same_scope t e ck st sk) store = [] ->
  Forall (fun r =>
            (req_tenant r, req_env r, req_scopeType r, req_scopeKey r) = (t, e, st, sk) /\
            validate_value V reg ck (req_value r) = None) rs ->
  (upsert_all V reg store ck rs).1
  = map (fun k => Ok (Z.of_nat k)) (seq 1 (length rs)) /\
  forall store' r,
    In r rs ->
    let stored := map version (List.filter (same_scope t e ck st sk) store') in
    exists m,
      (upsert_component V reg store' ck r).1 = Ok (1 + m) /\
      ((stored = [] /\ m = 0) \/
       (In m stored /\ forall x, In x stored -> x <= m)).
Proof.
  intros Hempty Hrs. split.
  - apply (upsert_all_from V reg store ck t e st sk rs 0); [by rewrite Hempty|done].
  - intros store' r Hr stored.
    rewrite Forall_forall in Hrs. destruct (Hrs r) as [[= Ht He Hst Hsk] Hv].
    { by apply list_elem_of_In. }
    rewrite (upsert_component_accepted V reg store' ck r Hv). simpl.
    exists (max_default stored). split.
    + unfold next_version_for. rewrite Ht, He, Hst, Hsk. f_equal. fold stored. lia.
    + destruct (max_default_spec stored) as [[-> ->]|H]; auto.
Qed.

Lemma upsert_versions_sequential_witness :
  (upsert_all title_validator sample_registry shelf "card" [titled; titled_again; titled]).1
  = [Ok 1; Ok 2; Ok 3].
Proof.
  apply (upsert_versions_sequential title_validator sample_registry shelf
           "card" "acme" "dev" "page" "home" [titled; titled_again; titled]).
  - reflexivity.
  - repeat constructor.
Defined.

(** ** Latest version per scope *)

Section Latest.

Implicit Types (L : list ((string * string) * ConfigDoc)) (l : list ConfigDoc)
  (d r : ConfigDoc) (k : string * string).

Lemma scope_eqb_decide k k' : scope_eqb k k' = bool_decide (k = k').
Proof.
  destruct k as [a b], k' as [a' b']. unfold scope_eqb. simpl.
  case_bool_decide as H.
  - injection H as -> ->. by rewrite !String.eqb_refl.
  - apply andb_false_iff.
    destruct (String.eqb_spec a a') as [->|]; [|by left].
    destruct (String.eqb_spec b b') as [->|]; [done|by right].
Qed.

Lemma dict_get_set k k' d L :
  dict_get k' (dict_set k d L) = if bool_decide (k' = k) then Some d else dict_get k' L.
Proof.
  induction L as [|[k1 d1] L IH]; simpl.
  - by rewrite scope_eqb_decide.
  - rewrite !scope_eqb_decide.
    destruct (bool_decide_reflect (k = k1)) as [->|Hk]; simpl;
      rewrite !scope_eqb_decide.
    + by case_bool_decide.
    + rewrite IH. repeat case_bool_decide; congruence.
Qed.

Lemma dict_get_None k L : dict_get k L = None <-> ~ In k (map fst L).
Proof.
  induction L as [|[k1 d1] L IH]; simpl; [tauto|].
  rewrite scope_eqb_decide. case_bool_decide; [|rewrite IH]; intuition congruence.
Qed.

Lemma dict_get_In k r L : dict_get k L = Some r -> In (k, r) L.
Proof.
  induction L as [|[k1 d1] L IH]; simpl; [done|].
  rewrite scope_eqb_decide. case_bool_decide as H.
  - intros [= ->]. left. by rewrite H.
  - intros Hg. right. by apply IH.
Qed.

Lemma In_dict_get k r L : NoDup (map fst L) -> In (k, r) L -> dict_get k L = Some r.
Proof.
  induction L as [|[k1 d1] L IH]; simpl; [done|].
  intros Hnd. apply NoDup_cons in Hnd as [Hk1 Hnd].
  rewrite scope_eqb_decide. intros [[= -> ->]|Hin].
  - by rewrite bool_decide_eq_true_2.
  - rewrite bool_decide_eq_false_2; [by apply IH|].
    intros ->. apply Hk1. apply list_elem_of_In, in_map_iff. by exists (k1, r).
Qed.

Lemma dict_set_keys k d L :
  map fst (dict_set k d L)
  = match dict_get k L with
    | Some _ => map fst L
    | None => (map fst L ++ [k])%list
    end.
Proof.
  induction L as [|[k1 d1] L IH]; simpl; [done|].
  destruct (scope_eqb k k1); simpl; [done|].
  rewrite IH. by destruct (dict_get k L).
Qed.

Lemma first_max_snoc_other l r d :
  scope_of d <> scope_of r -> first_max l r -> first_max (l ++ [d]) r.
Proof.
  intros Hne (i & Hi & Hmax). exists i. split; [by apply lookup_app_l_Some|].
  intros j d' Hj Hs. apply lookup_snoc_Some in Hj as [[_ Hj]|[_ <-]]; [eauto|done].
Qed.

Lemma first_max_snoc_le l r d :
  version d <= version r -> first_max l r -> first_max (l ++ [d]) r.
Proof.
  intros Hle (i & Hi & Hmax). exists i. split; [by apply lookup_app_l_Some|].
  intros j d' Hj Hs. apply lookup_snoc_Some in Hj as [[_ Hj]|[-> <-]]; [eauto|].
  apply lookup_lt_Some in Hi. split; intros; lia.
Qed.

Lemma first_max_snoc_new l d :
  (forall d', In d' l -> scope_of d' = scope_of d -> version d' < version d) ->
  first_max (l ++ [d]) d.
Proof.
  intros Hlt. exists (length l). split.
  { apply lookup_snoc_Some. by right. }
  intros j d' Hj Hs. apply lookup_snoc_Some in Hj as [[Hlen Hj]|[-> _]].
  - split; [|lia]. intros _. apply Hlt; [|done].
    by apply list_elem_of_In, list_elem_of_lookup_2 with j.
  - split; lia.
Qed.

(** Every document of the scope of [r] seen so far has at most its version. *)
Lemma first_max_bound l r d :
  first_max l r -> In d l -> scope_of d = scope_of r -> version d <= version r.
Proof.
  intros (i & Hi & Hmax) Hd Hs.
  apply list_elem_of_In, list_elem_of_lookup in Hd as [j Hj].
  destruct (Hmax j d Hj Hs) as [Hlt Hle].
  destruct (Nat.lt_trichotomy j i) as [H|[->|H]]; [specialize (Hlt H); lia| |auto].
  rewrite Hi in Hj. injection Hj as ->. lia.
Qed.

Lemma first_max_unique l r r' :
  first_max l r -> first_max l r' -> scope_of r = scope_of r' -> r = r'.
Proof.
  intros (i & Hi & Hmax) (i' & Hi' & Hmax') Hs.
  destruct (Nat.lt_trichotomy i i') as [H|[->|H]].
  - destruct (Hmax' i r Hi Hs) as [Hlt _]. specialize (Hlt H).
    destruct (Hmax i' r' Hi' (eq_sym Hs)) as [_ Hle]. specialize (Hle H). lia.
  - congruence.
  - destruct (Hmax i' r' Hi' (eq_sym Hs)) as [Hlt _]. specialize (Hlt H).
    destruct (Hmax' i r Hi Hs) as [_ Hle]. specialize (Hle H). lia.
Qed.

Lemma latest_inv_step L l d :
  latest_inv L l -> latest_inv (latest_step L d) (l ++ [d]).
Proof.
  intros (Hnd & Hget & Hall). unfold latest_step.
  destruct (dict_get (scope_of d) L) as [prev|] eqn:Hprev.
  - destruct (Hget _ _ Hprev) as [Hsp Hfm].
    destruct (Z.gtb_spec (version d) (version prev)) as [Hgt|Hle].
    + repeat split.
      * by rewrite dict_set_keys, Hprev.
      * rewrite dict_get_set in H. case_bool_decide; congruence || (by destruct (Hget _ _ H)).
      * rewrite dict_get_set in H. case_bool_decide as Hk.
        -- injection H as <-. apply first_max_snoc_new. intros d' Hd' Hs.
           pose proof (first_max_bound l prev d' Hfm Hd') as Hb.
           rewrite Hsp in Hb. specialize (Hb Hs). lia.
        -- destruct (Hget _ _ H) as [Hsr Hfr].
           apply first_max_snoc_other; [congruence|done].
      * intros d' Hd'. rewrite dict_get_set. case_bool_decide; [done|].
        apply in_app_iff in Hd' as [Hd'|[<-|[]]]; [by apply Hall|done].
    + repeat split; [done|by destruct (Hget _ _ H)| |].
      * destruct (Hget _ _ H) as [Hsr Hfr].
        destruct (decide (scope_of d = k)) as [Hk|Hk].
        -- assert (r = prev) as -> by congruence. by apply first_max_snoc_le.
        -- apply first_max_snoc_other; [congruence|done].
      * intros d' Hd'. apply in_app_iff in Hd' as [Hd'|[<-|[]]]; [by apply Hall|].
        by rewrite Hprev.
  - repeat split.
    + rewrite dict_set_keys, Hprev. apply NoDup_app. repeat split; [done| |apply NoDup_singleton].
      intros k Hk ->%list_elem_of_singleton.
      apply dict_get_None in Hprev. by apply Hprev, list_elem_of_In.
    + rewrite dict_get_set in H. case_bool_decide; congruence || (by destruct (Hget _ _ H)).
    + rewrite dict_get_set in H. case_bool_decide as Hk.
      * injection H as <-. apply first_max_snoc_new. intros d' Hd' Hs.
        destruct (Hall d' Hd') as [x Hx]. congruence.
      * destruct (Hget _ _ H) as [Hsr Hfr].
        apply first_max_snoc_other; [congruence|done].
    + intros d' Hd'. rewrite dict_get_set. case_bool_decide; [done|].
      apply in_app_iff in Hd' as [Hd'|[<-|[]]]; [by apply Hall|done].
Qed.

Lemma latest_inv_fold l2 : forall L l1,
  latest_inv L l1 -> latest_inv (fold_left latest_step l2 L) (l1 ++ l2).
Proof.
  induction l2 as [|d l2 IH]; intros L l1 Hinv; simpl.
  - by rewrite app_nil_r.
  - rewrite (cons_middle d l1 l2), app_assoc. by apply IH, latest_inv_step.
Qed.

Lemma latest_inv_init : latest_inv [] [].
Proof. repeat split; [constructor|done|done|by intros []]. Qed.

End Latest.

(** C6, as amended: the reduction keeps one document for every scope that
    occurs among the scanned documents of the identity, namely the first
    one in scan order that has the greatest version of its scope; when two
    documents of a scope share the greatest version, the one observed first
    is kept. *)
Theorem latest_versions_for_first_max (store : list ConfigDoc)
    (identity : string * string * string) :
  let scanned := candidates_for store identity in
  let kept := latest_versions_for store identity in
  NoDup (map scope_of kept) /\
  (forall d, In d scanned -> exists r, In r kept /\ scope_of r = scope_of d) /\
  (forall r, In r kept <-> first_max scanned r).
Proof.
  intros scanned kept.
  pose proof (latest_inv_fold scanned [] [] latest_inv_init) as (Hnd & Hget & Hall).
  simpl in Hnd, Hget, Hall. fold scanned in Hget, Hall.
  unfold kept, latest_versions_for. fold scanned.
  set (L := fold_left latest_step scanned []) in *.
  assert (Hin : forall r, In r (map snd L) <-> exists k, dict_get k L = Some r).
  { intros r. rewrite in_map_iff. split.
    - intros ([k r'] & <- & Hkr). exists k. by apply In_dict_get.
    - intros (k & Hk). exists (k, r). split; [done|by apply dict_get_In]. }
  split; [|split].
  - replace (map scope_of (map snd L)) with (map fst L); [done|].
    rewrite map_map. apply map_ext_in. intros [k r] Hkr. simpl.
    apply In_dict_get in Hkr; [|done]. by destruct (Hget _ _ Hkr).
  - intros d Hd. destruct (Hall d Hd) as [r Hr]. exists r. split.
    + apply Hin. eauto.
    + by destruct (Hget _ _ Hr).
  - intros r. rewrite Hin. split.
    + intros (k & Hk). by destruct (Hget _ _ Hk).
    + intros Hfm. pose proof Hfm as (i & Hi & _).
      apply list_elem_of_lookup_2, list_elem_of_In in Hi.
      destruct (Hall r Hi) as [r' Hr']. exists (scope_of r).
      destruct (Hget _ _ Hr') as [Hs Hfm'].
      by rewrite <- (first_max_unique scanned r r' Hfm Hfm' (eq_sym Hs)) in Hr'.
Qed.

Lemma latest_versions_for_first_max_witness :
  exists r, In r (latest_versions_for tie_store ("acme", "dev", "header")) /\
            scope_of r = scope_of tie_second.
Proof.
  apply (proj1 (proj2 (latest_versions_for_first_max tie_store ("acme", "dev", "header")))).
  simpl. auto.
Defined.

(** C6 as stated fails: of two documents of one scope with the same
    version, the reduction keeps the one observed first, not the last. *)
Lemma latest_tie_keeps_first :
  last_max (candidates_for tie_store ("acme", "dev", "header")) tie_second /\
  ~ In tie_second (latest_versions_for tie_store ("acme", "dev", "header")).
Proof.
  split.
  - exists 1%nat. split; [reflexivity|].
    intros [|[|j]] d Hj _; simpl in Hj.
    + injection Hj as <-. simpl. split; intros; lia.
    + split; intros; lia.
    + discriminate Hj.
  - intros [H|[]]. apply (f_equal createdAt) in H. discriminate H.
Qed.

(** ** The specificity example *)

Section Specificity.

Lemma Permutation_three {A} (a b c : A) (l : list A) :
  l ≡ₚ [a; b; c] ->
  l = [a; b; c] \/ l = [a; c; b] \/ l = [b; a; c] \/
  l = [b; c; a] \/ l = [c; a; b] \/ l = [c; b; a].
Proof.
  intros H. symmetry in H.
  apply Permutation_cons_inv_l in H as (k1 & k2 & -> & H).
  apply Permutation_length_2_inv in H.
  destruct k1 as [|x [|y [|z k1]]]; simpl in H;
    destruct H as [H|H]; simplify_eq/=; auto 10.
  all: destruct k1; discriminate.
Qed.

Lemma candidates_for_all (store : list ConfigDoc) (t e ck : string) :
  Forall (fun d => (tenant d, env d, componentKey d) = (t, e, ck)) store ->
  candidates_for store (t, e, ck) = store.
Proof.
  intros H. apply filter_all. intros d Hd. apply same_identity_true.
  rewrite Forall_forall in H. by apply H, list_elem_of_In.
Qed.

End Specificity.

(** C1: with one global document [{a: 1, b: 1}], one page document for
    ["home"] holding [{b: 2}] and one route document for ["/shop/*"]
    holding [{b: 3, c: 1}], stored in any order, and no registered default,
    resolving with route ["/shop/42"] and page ["home"] gives
    [{a: 1, b: 3, c: 1}], with the page alone [{a: 1, b: 2}], with neither
    [{a: 1, b: 1}]. *)
Theorem resolve_specificity_example (reg : registry) (t e ck gk : string)
    (vg vp vr tg tp tr : Z) (ug up ur : string) (store : list ConfigDoc) :
  default_for reg ck = JObj ∅ ->
  store ≡ₚ [ mkDoc t e ck "global" gk vg layer_global tg ug;
             mkDoc t e ck "page" "home" vp layer_page tp up;
             mkDoc t e ck "route" "/shop/*" vr layer_route tr ur ] ->
  effective_for_component reg store t e ck (Some "/shop/42") (Some "home")
  = JObj {[ "a" := JNum 1; "b" := JNum 3; "c" := JNum 1 ]} /\
  effective_for_component reg store t e ck None (Some "home")
  = JObj {[ "a" := JNum 1; "b" := JNum 2 ]} /\
  effective_for_component reg store t e ck None None
  = JObj {[ "a" := JNum 1; "b" := JNum 1 ]}.
Proof.
  intros Hdflt Hperm.
  assert (Hall : candidates_for store (t, e, ck) = store).
  { apply candidates_for_all. rewrite Hperm. by repeat constructor. }
  unfold effective_for_component, latest_versions_for.
  rewrite Hdflt, Hall. clear Hdflt Hall.
  apply Permutation_three in Hperm.
  destruct Hperm as [->|[->|[->|[->|[->| ->]]]]]; by vm_compute.
Qed.

Lemma resolve_specificity_example_witness :
  effective_for_component sample_registry shop_store "acme" "dev" "header"
      (Some "/shop/42") (Some "home")
  = JObj {[ "a" := JNum 1; "b" := JNum 3; "c" := JNum 1 ]} /\
  effective_for_component sample_registry shop_store "acme" "dev" "header"
      None (Some "home")
  = JObj {[ "a" := JNum 1; "b" := JNum 2 ]} /\
  effective_for_component sample_registry shop_store "acme" "dev" "header" None None
  = JObj {[ "a" := JNum 1; "b" := JNum 1 ]}.
Proof.
  apply (resolve_specificity_example sample_registry "acme" "dev" "header" "*"
           1 4 2 10 11 12 "dev" "ops" "dev" shop_store).
  - reflexivity.
  - unfold shop_store. apply Permutation_swap.
Defined.

(** * Further properties of the service *)

(** ** Sorting by specificity *)

Section Sorting.

Context {A : Type} (le : A -> A -> bool).
Hypothesis le_total : forall x y, le x y = false -> le y x = true.
Hypothesis le_trans : forall x y z, le x y = true -> le y z = true -> le x z = true.

Let R (a b : A) : Prop := le a b = true.

Lemma insert_by_strongly_sorted x l :
  StronglySorted R l -> StronglySorted R (insert_by le x l).
Proof using le_total le_trans.
  induction 1 as [|y l Hs IH Hy]; simpl; [repeat constructor|].
  destruct (le x y) eqn:Hxy.
  - constructor; [by constructor|]. constructor; [done|].
    eapply Forall_impl; [exact Hy|]. intros z Hz. by apply le_trans with y.
  - constructor; [done|].
    rewrite insert_by_perm. constructor; [by apply le_total|done].
Qed.

Lemma sorted_by_strongly_sorted l : StronglySorted R (sorted_by le l).
Proof using le_total le_trans.
  induction l as [|x l IH]; simpl; [constructor|by apply insert_by_strongly_sorted].
Qed.

(** Elements that [p] selects are pairwise in order both ways, so sorting
    leaves them in the order they came in. *)
Lemma filter_insert_by (p : A -> bool) x l :
  (forall a b, p a = true -> p b = true -> le a b = true) ->
  List.filter p (insert_by le x l)
  = if p x then x :: List.filter p l else List.filter p l.
Proof.
  intros Hp. induction l as [|y l IH]; simpl; [done|].
  destruct (le x y) eqn:Hxy; simpl; [done|].
  rewrite IH. destruct (p x) eqn:Hx, (p y) eqn:Hy; try done.
  rewrite (Hp x y Hx Hy) in Hxy. discriminate.
Qed.

Lemma filter_sorted_by (p : A -> bool) l :
  (forall a b, p a = true -> p b = true -> le a b = true) ->
  List.filter p (sorted_by le l) = List.filter p l.
Proof.
  intros Hp. induction l as [|x l IH]; simpl; [done|].
  rewrite filter_insert_by by done. by rewrite IH.
Qed.




End Sorting.

Section ScoreOrder.

Lemma tuple_le_total (a b : Z * Z) : tuple_le a b = false -> tuple_le b a = true.
Proof.
  destruct a as [a1 a2], b as [b1 b2]. unfold tuple_le. simpl.
  rewrite orb_false_iff, andb_false_iff, orb_true_iff, andb_true_iff.
  rewrite !Z.ltb_ge, !Z.ltb_lt, !Z.eqb_eq, Z.eqb_neq, Z.leb_gt, Z.leb_le. lia.
Qed.


Lemma tuple_le_refl (a : Z * Z) : tuple_le a a = true.
Proof.
  destruct (tuple_le a a) eqn:H; [done|]. by rewrite (tuple_le_total _ _ H) in H.
Qed.

Lemma sort_scopes_same_score (s : Z * Z) (l : list ConfigDoc) :
  (forall d, In d l -> score d = s) -> sort_scopes l = l.
Proof.
  intros Hs. unfold sort_scopes.
  set (p := fun d : ConfigDoc => bool_decide (score d = s)).
  set (le := fun a b : ConfigDoc => tuple_le (score a) (score b)).
  assert (Hp : forall a b, p a = true -> p b = true -> le a b = true).
  { intros a b Ha%bool_decide_eq_true Hb%bool_decide_eq_true.
    unfold le. rewrite Ha, Hb. apply tuple_le_refl. }
  transitivity (List.filter p (sorted_by le l)); [|transitivity (List.filter p l)].
  - symmetry. apply filter_all. intros d Hd. apply bool_decide_eq_true, Hs.
    apply list_elem_of_In. apply list_elem_of_In in Hd. by rewrite sorted_by_perm in Hd.
  - by apply filter_sorted_by.
  - apply filter_all. intros d Hd. apply bool_decide_eq_true. by apply Hs.
Qed.

End ScoreOrder.


(** X2: the global documents and the documents of the requested page are
    merged in the order in which the reduction lists them; sorting by
    specificity can only reorder route documents. *)
Theorem sort_scopes_fixes_globals_and_pages (docs : list ConfigDoc) (page : option string) :
  sort_scopes (List.filter (fun d => String.eqb (scopeType d) "global") docs)
  = List.filter (fun d => String.eqb (scopeType d) "global") docs /\
  sort_scopes (List.filter (fun d => String.eqb (scopeType d) "page" && truthy page
                                     && bool_decide (Some (scopeKey d) = page)) docs)
  = List.filter (fun d => String.eqb (scopeType d) "page" && truthy page
                          && bool_decide (Some (scopeKey d) = page)) docs.
Proof.
  split.
  - apply (sort_scopes_same_score (0, 0)). intros d Hd.
    apply filter_In in Hd as [_ Hd]. unfold score. by rewrite Hd.
  - apply (sort_scopes_same_score (1, Z.of_nat (String.length (default "" page)))).
    intros d Hd. apply filter_In in Hd as [_ Hd].
    apply andb_true_iff in Hd as [Hd Hk]. apply andb_true_iff in Hd as [Hd _].
    apply bool_decide_eq_true in Hk. apply String.eqb_eq in Hd.
    unfold score. rewrite Hd. simpl. by rewrite <- Hk.
Qed.

(** ** More on deep merge *)

Section DeepMergeAlgebra.

Lemma deep_merge_idem a : deep_merge a a = a.
Proof.
  induction a as [a IH] using json_obj_ind.
  destruct a as [| | | | |m]; try reflexivity.
  rewrite deep_merge_obj. f_equal. apply map_eq. intros k.
  rewrite lookup_deep_merge. destruct (m !! k) as [v|] eqn:Hk; [|done].
  simpl. f_equal. by eapply IH.
Qed.

Lemma shape_compatible_refl b : shape_compatible b b = true.
Proof.
  induction b as [b IH] using json_obj_ind.
  destruct b as [| | | | |m]; try reflexivity.
  apply shape_compatible_obj. right. exists m. split; [done|].
  intros k v Hk. rewrite Hk. simpl. by eapply IH.
Qed.

Lemma deep_merge_empty_l om : deep_merge (JObj ∅) (JObj om) = JObj om.
Proof.
  rewrite deep_merge_obj. f_equal. apply map_eq. intros k.
  rewrite lookup_deep_merge, lookup_empty. simpl.
  destruct (om !! k); [|done]. by rewrite deep_merge_null_l.
Qed.

Lemma deep_merge_empty_r bm : deep_merge (JObj bm) (JObj ∅) = JObj bm.
Proof.
  rewrite deep_merge_obj. f_equal. apply map_eq. intros k.
  by rewrite lookup_deep_merge, lookup_empty.
Qed.

End DeepMergeAlgebra.

(** X3: merging a value into itself changes nothing. *)
Theorem deep_merge_idempotent (a : json) : deep_merge a a = a.
Proof. apply deep_merge_idem. Qed.

(** X4: merging the same override a second time changes nothing. *)
Theorem deep_merge_twice (a b : json) :
  deep_merge (deep_merge a b) b = deep_merge a b.
Proof.
  rewrite deep_merge_assoc_compatible by apply shape_compatible_refl.
  by rewrite deep_merge_idem.
Qed.

(** X5: null is neutral on both sides of a merge and the empty mapping is
    neutral among mappings; merged into anything else, the empty mapping
    replaces it. *)
Theorem deep_merge_neutral :
  (forall x, deep_merge JNull x = x /\ deep_merge x JNull = x) /\
  (forall m, deep_merge (JObj ∅) (JObj m) = JObj m /\
             deep_merge (JObj m) (JObj ∅) = JObj m) /\
  (forall x, is_dict x = false -> deep_merge x (JObj ∅) = JObj ∅).
Proof.
  split; [|split].
  - intros x. split; [apply deep_merge_null_l|apply deep_merge_null_r].
  - intros m. split; [apply deep_merge_empty_l|apply deep_merge_empty_r].
  - intros x Hx. by destruct x.
Qed.

Lemma deep_merge_neutral_witness : deep_merge (JNum 7) (JObj ∅) = JObj ∅.
Proof. apply (proj2 (proj2 deep_merge_neutral)). reflexivity. Defined.

(** ** What a resolution is made of *)

Section ResolutionShape.

Implicit Types (store docs : list ConfigDoc) (reg : registry) (d r : ConfigDoc).

(** Membership in the reduction, for use below. *)
Lemma latest_kept_iff store identity r :
  In r (latest_versions_for store identity)
  <-> first_max (candidates_for store identity) r.
Proof.
  pose proof (latest_inv_fold (candidates_for store identity) [] [] latest_inv_init)
    as (Hnd & Hget & Hall).
  simpl in Hnd, Hget, Hall. unfold latest_versions_for.
  set (scanned := candidates_for store identity) in *.
  set (L := fold_left latest_step scanned []) in *.
  rewrite in_map_iff. split.
  - intros ([k r'] & <- & Hkr). apply In_dict_get in Hkr; [|done].
    by destruct (Hget _ _ Hkr).
  - intros Hfm. pose proof Hfm as (i & Hi & _).
    apply list_elem_of_lookup_2, list_elem_of_In in Hi.
    destruct (Hall r Hi) as [r' Hr']. destruct (Hget _ _ Hr') as [Hs Hfm'].
    rewrite <- (first_max_unique scanned r r' Hfm Hfm' (eq_sym Hs)) in Hr'.
    exists (scope_of r, r). split; [done|by apply dict_get_In].
Qed.

Lemma latest_kept_scanned store identity r :
  In r (latest_versions_for store identity) -> In r (candidates_for store identity).
Proof.
  intros (i & Hi & _)%latest_kept_iff.
  by apply list_elem_of_In, list_elem_of_lookup_2 with i.
Qed.


Lemma effective_for_component_ext reg store store' t e ck route page :
  candidates_for store' (t, e, ck) = candidates_for store (t, e, ck) ->
  effective_for_component reg store' t e ck route page
  = effective_for_component reg store t e ck route page.
Proof.
  intros H. unfold effective_for_component, latest_versions_for. by rewrite H.
Qed.



Lemma deep_merge_keeps_keys (bm : gmap string json) v :
  dict_or_none v = true ->
  exists m' : gmap string json, deep_merge (JObj bm) v = JObj m' /\ dom bm ⊆ dom m'.
Proof.
  destruct v as [| | | | |om]; try discriminate; intros _.
  - by exists bm.
  - eexists. split; [apply deep_merge_obj|].
    intros k [x Hx]%elem_of_dom. apply elem_of_dom.
    rewrite lookup_deep_merge, Hx. by destruct (om !! k).
Qed.

Lemma apply_docs_keeps_keys docs : forall m : gmap string json,
  (forall d, In d docs -> dict_or_none (value d) = true) ->
  exists m' : gmap string json, apply_docs (JObj m) docs = JObj m' /\ dom m ⊆ dom m'.
Proof.
  induction docs as [|d docs IH]; intros m Hd; simpl.
  - by exists m.
  - destruct (deep_merge_keeps_keys m (value d)) as (m1 & -> & H1).
    { apply Hd. by left. }
    destruct (IH m1) as (m2 & -> & H2).
    { intros d' Hd'. apply Hd. by right. }
    exists m2. split; [done|]. set_solver.
Qed.

Lemma sort_scopes_In d docs : In d (sort_scopes docs) <-> In d docs.
Proof.
  rewrite <- !list_elem_of_In. unfold sort_scopes. by rewrite sorted_by_perm.
Qed.

End ResolutionShape.



(** X7: when the default of a component is a mapping and every stored value
    of the identity is a mapping or null, the resolution is a mapping that
    has every key of the default: no document removes a key. *)
Theorem resolution_keeps_default_keys (reg : registry) (store : list ConfigDoc)
    (t e ck : string) (route page : option string) (m : gmap string json) :
  default_for reg ck = JObj m ->
  (forall d, In d (candidates_for store (t, e, ck)) -> dict_or_none (value d) = true) ->
  exists m' : gmap string json,
    effective_for_component reg store t e ck route page = JObj m' /\ dom m ⊆ dom m'.
Proof.
  intros Hdflt Hvals. unfold effective_for_component. rewrite Hdflt.
  assert (Hsel : forall p d,
    In d (sort_scopes (List.filter p (latest_versions_for store (t, e, ck)))) ->
    dict_or_none (value d) = true).
  { intros p d [Hd _]%sort_scopes_In%filter_In.
    by apply Hvals, latest_kept_scanned. }
  match goal with
  | |- context [apply_docs (JObj m) (sort_scopes (List.filter ?p _))] =>
      destruct (apply_docs_keeps_keys _ m (Hsel p)) as (m1 & -> & H1)
  end.
  match goal with
  | |- context [apply_docs (JObj m1) (sort_scopes (List.filter ?p _))] =>
      destruct (apply_docs_keeps_keys _ m1 (Hsel p)) as (m2 & -> & H2)
  end.
  match goal with
  | |- context [apply_docs (JObj m2) (sort_scopes (List.filter ?p _))] =>
      destruct (apply_docs_keeps_keys _ m2 (Hsel p)) as (m3 & -> & H3)
  end.
  exists m3. split; [done|]. set_solver.
Qed.

Lemma resolution_keeps_default_keys_witness :
  exists m' : gmap string json,
    effective_for_component sample_registry banner_store "acme" "dev" "banner"
      None (Some "home") = JObj m' /\
    dom ({[ "a" := JNum 1; "b" := JNum 1 ]} : gmap string json) ⊆ dom m'.
Proof.
  apply (resolution_keeps_default_keys sample_registry banner_store "acme" "dev" "banner"
           None (Some "home") {[ "a" := JNum 1; "b" := JNum 1 ]}).
  - reflexivity.
  - intros d [<-|[<-|[]]]; reflexivity.
Defined.

(** ** Writes, versions and what a later read sees *)

Section Writes.

Context (V : Draft202012Validator) (reg : registry).
Implicit Types (store l : list ConfigDoc) (d : ConfigDoc) (r : Upsert).

Lemma candidates_for_app store store' identity :
  candidates_for (store ++ store') identity
  = (candidates_for store identity ++ candidates_for store' identity)%list.
Proof. destruct identity as [[t e] c]. apply List.filter_app. Qed.

Lemma candidates_for_In store t e c d :
  In d (candidates_for store (t, e, c))
  <-> In d store /\ (tenant d, env d, componentKey d) = (t, e, c).
Proof. unfold candidates_for. by rewrite filter_In, same_identity_true. Qed.

Lemma same_key_true a b :
  same_key a b = true <->
  (tenant b, env b, componentKey b) = (tenant a, env a, componentKey a)
  /\ scope_of b = scope_of a.
Proof. unfold same_key. by rewrite same_scope_true. Qed.

Lemma next_version_for_gt store t e c st sk d :
  In d store -> same_scope t e c st sk d = true ->
  version d < next_version_for store t e c st sk.
Proof.
  intros Hd Hs. unfold next_version_for.
  destruct (max_default_spec (map version (List.filter (same_scope t e c st sk) store)))
    as [[Hnil _]|[_ Hub]].
  - apply map_eq_nil in Hnil.
    assert (In d []) as []. rewrite <- Hnil. by apply filter_In.
  - assert (Hin : In (version d)
                       (map version (List.filter (same_scope t e c st sk) store))).
    { apply in_map. by apply filter_In. }
    specialize (Hub _ Hin). lia.
Qed.

Lemma next_version_for_ge_1 store t e c st sk :
  Forall (fun d => 1 <= version d) store ->
  1 <= next_version_for store t e c st sk.
Proof.
  intros Hpos. unfold next_version_for.
  destruct (max_default_spec (map version (List.filter (same_scope t e c st sk) store)))
    as [[_ ->]|[Hin _]]; [lia|].
  apply in_map_iff in Hin as (d & <- & [Hd _]%filter_In).
  rewrite Forall_forall in Hpos. apply list_elem_of_In in Hd.
  specialize (Hpos d Hd). simpl in Hpos. lia.
Qed.

(** The store after an upsert is the old store, or the old store with one
    document carrying the next version at its end. *)
Lemma upsert_component_store store ck r :
  (upsert_component V reg store ck r).2 = store \/
  (upsert_component V reg store ck r).2
  = (store ++ [mkDoc (req_tenant r) (req_env r) ck (req_scopeType r) (req_scopeKey r)
                 (next_version_for store (req_tenant r) (req_env r) ck
                    (req_scopeType r) (req_scopeKey r))
                 (req_value r) (now r) (default "dev" (body_updatedBy (body r)))])%list.
Proof.
  unfold upsert_component.
  destruct (validate_value V reg ck (req_value r)) as [[|err errs]|]; simpl; auto.
Qed.

Lemma version_ordered_cons d l :
  version_ordered (d :: l) = true <->
  (forall d', In d' l -> same_key d d' = true -> version d < version d') /\
  version_ordered l = true.
Proof.
  simpl. rewrite andb_true_iff, forallb_forall. split.
  - intros [H Hl]. split; [|done]. intros d' Hd' Hk.
    specialize (H d' Hd'). rewrite Hk in H. simpl in H. by apply Z.ltb_lt.
  - intros [H Hl]. split; [|done]. intros d' Hd'.
    destruct (same_key d d') eqn:Hk; [|done]. simpl. apply Z.ltb_lt. by apply H.
Qed.

Lemma version_ordered_snoc l x :
  version_ordered (l ++ [x]) = true <->
  version_ordered l = true /\
  (forall d, In d l -> same_key d x = true -> version d < version x).
Proof.
  induction l as [|d l IH].
  - simpl. split; [by intros _; split|done].
  - rewrite <- app_comm_cons, !version_ordered_cons, IH. split.
    + intros [Hd [Hl Hx]]. repeat split.
      * intros d' Hd'. apply Hd. apply in_app_iff. by left.
      * done.
      * intros d' [<-|Hd']; [|by apply Hx].
        apply Hd. apply in_app_iff. right. by left.
    + intros [[Hd Hl] Hx]. repeat split; [|done|].
      * intros d' [Hd'|[<-|[]]]%in_app_iff; [by apply Hd|]. apply Hx. by left.
      * intros d' Hd'. apply Hx. by right.
Qed.

Lemma version_ordered_filter (p : ConfigDoc -> bool) l :
  version_ordered l = true -> version_ordered (List.filter p l) = true.
Proof.
  induction l as [|d l IH]; [done|]. intros [Hd Hl]%version_ordered_cons. simpl.
  destruct (p d); [|by apply IH].
  apply version_ordered_cons. split; [|by apply IH].
  intros d' [Hd' _]%filter_In. by apply Hd.
Qed.

Lemma version_ordered_lookup l (i j : nat) a b :
  version_ordered l = true ->
  l !! i = Some a -> l !! j = Some b -> (i < j)%nat ->
  same_key a b = true -> version a < version b.
Proof.
  revert i j. induction l as [|d l IH]; intros i j Hl Hi Hj Hij Hk; [done|].
  apply version_ordered_cons in Hl as [Hd Hl].
  destruct i as [|i], j as [|j]; try lia; simpl in Hi, Hj.
  - injection Hi as ->. apply Hd; [|done].
    by apply list_elem_of_In, list_elem_of_lookup_2 with j.
  - apply (IH i j); [done..|lia|done].
Qed.

Lemma run_op_invariant store op :
  version_ordered store = true /\ Forall (fun d => 1 <= version d) store ->
  version_ordered (run_op V reg store op) = true /\
  Forall (fun d => 1 <= version d) (run_op V reg store op).
Proof.
  intros [Hord Hpos]. destruct op as [ck r|ck t e|]; simpl.
  - destruct (upsert_component_store store ck r) as [->| ->]; [done|]. split.
    + apply version_ordered_snoc. split; [done|].
      intros d Hd [Hid Hsc]%same_key_true. simpl in Hid, Hsc. simpl.
      apply next_version_for_gt; [done|]. apply same_scope_true.
      unfold scope_of in *. simpl in Hsc. injection Hid as <- <- <-.
      injection Hsc as <- <-. done.
    + apply Forall_app. split; [done|]. constructor; [|constructor].
      simpl. by apply next_version_for_ge_1.
  - split; [by apply version_ordered_filter|].
    unfold delete_component. rewrite Forall_forall in *. intros d Hd. apply Hpos.
    apply list_elem_of_In in Hd. apply list_elem_of_In. by apply filter_In in Hd as [? _].
  - done.
Qed.

Lemma run_ops_invariant ops : forall store,
  version_ordered store = true /\ Forall (fun d => 1 <= version d) store ->
  version_ordered (fold_left (run_op V reg) ops store) = true /\
  Forall (fun d => 1 <= version d) (fold_left (run_op V reg) ops store).
Proof.
  induction ops as [|op ops IH]; intros store Hinv; [done|].
  simpl. by apply IH, run_op_invariant.
Qed.

End Writes.



(** X9: a write for one tenant, environment and component changes neither
    the resolution nor the history of any other; this holds for upserts,
    accepted or not, and for deletions. *)
Theorem writes_do_not_leak (V : Draft202012Validator) (reg : registry)
    (store : list ConfigDoc) (t e ck : string) (route page : option string) :
  (forall ck' r,
      (req_tenant r, req_env r, ck') <> (t, e, ck) ->
      effective_for_component reg (upsert_component V reg store ck' r).2 t e ck route page
      = effective_for_component reg store t e ck route page /\
      get_history (upsert_component V reg store ck' r).2 ck t e
      = get_history store ck t e) /\
  (forall ck' t' e',
      (t', e', ck') <> (t, e, ck) ->
      effective_for_component reg (delete_component store ck' t' e') t e ck route page
      = effective_for_component reg store t e ck route page /\
      get_history (delete_component store ck' t' e') ck t e
      = get_history store ck t e).
Proof.
  split.
  - intros ck' r Hne.
    assert (Hc : candidates_for (upsert_component V reg store ck' r).2 (t, e, ck)
                 = candidates_for store (t, e, ck)).
    { destruct (upsert_component_store V reg store ck' r) as [->| ->]; [done|].
      rewrite candidates_for_app. simpl.
      match goal with |- context [same_identity t e ck ?d] =>
        replace (same_identity t e ck d) with false end.
      - apply app_nil_r.
      - symmetry. apply same_identity_false. simpl. congruence. }
    split; [by apply effective_for_component_ext|].
    unfold get_history. by rewrite Hc.
  - intros ck' t' e' Hne.
    assert (Hc : candidates_for (delete_component store ck' t' e') (t, e, ck)
                 = candidates_for store (t, e, ck)).
    { unfold candidates_for, delete_component. apply filter_filter_implied.
      intros d Hd%same_identity_true. apply negb_true_iff, same_identity_false.
      congruence. }
    split; [by apply effective_for_component_ext|].
    unfold get_history. by rewrite Hc.
Qed.

Lemma writes_do_not_leak_witness :
  effective_for_component sample_registry
    (upsert_component title_validator sample_registry shelf "card" titled).2
    "acme" "dev" "header" None (Some "home")
  = effective_for_component sample_registry shelf "acme" "dev" "header" None (Some "home").
Proof.
  apply (proj1 (writes_do_not_leak title_validator sample_registry shelf
                  "acme" "dev" "header" None (Some "home")) "card" titled).
  discriminate.
Defined.

(** X10: whatever sequence of upserts and deletions is run on an empty
    store, the versions of each identity and scope increase strictly along
    the store, so no two of its documents share a version, and every
    version is at least 1. *)
Theorem run_ops_versions_ordered (V : Draft202012Validator) (reg : registry)
    (ops : list operation) :
  version_ordered (run_ops V reg ops) = true /\
  Forall (fun d => 1 <= version d) (run_ops V reg ops) /\
  forall (i j : nat) a b,
    run_ops V reg ops !! i = Some a -> run_ops V reg ops !! j = Some b ->
    same_key a b = true -> version a = version b -> i = j.
Proof.
  destruct (run_ops_invariant V reg ops []) as [Hord Hpos]; [by split|].
  split; [done|]. split; [done|].
  intros i j a b Hi Hj Hk Hv.
  destruct (Nat.lt_trichotomy i j) as [H|[H|H]]; [|done|].
  - pose proof (version_ordered_lookup _ _ _ _ _ Hord Hi Hj H Hk). lia.
  - assert (Hk' : same_key b a = true).
    { apply same_key_true in Hk as [Hid Hs]. apply same_key_true. by split. }
    pose proof (version_ordered_lookup _ _ _ _ _ Hord Hj Hi H Hk'). lia.
Qed.

Lemma run_ops_versions_ordered_witness :
  version_ordered (run_ops title_validator sample_registry sample_ops) = true /\
  length (run_ops title_validator sample_registry sample_ops) = 3%nat.
Proof.
  split.
  - apply (proj1 (run_ops_versions_ordered title_validator sample_registry sample_ops)).
  - reflexivity.
Defined.

(** X11: in a store whose versions increase along each identity and scope,
    the document the reduction keeps for a scope is the last document of
    that scope in the scan, which is then also the last one with the
    greatest version. *)
Theorem kept_is_last_of_scope (store : list ConfigDoc)
    (identity : string * string * string) (r : ConfigDoc) :
  version_ordered store = true ->
  (In r (latest_versions_for store identity)
   <-> last_of_scope (candidates_for store identity) r) /\
  (In r (latest_versions_for store identity)
   <-> last_max (candidates_for store identity) r).
Proof.
  intros Hord. destruct identity as [[t e] c].
  assert (Hc : version_ordered (candidates_for store (t, e, c)) = true)
    by (by apply version_ordered_filter).
  set (scanned := candidates_for store (t, e, c)) in *.
  assert (Hkey : forall (i j : nat) a b,
    scanned !! i = Some a -> scanned !! j = Some b -> (i < j)%nat ->
    scope_of a = scope_of b -> version a < version b).
  { intros i j a b Hi Hj Hij Hs.
    apply (version_ordered_lookup scanned i j); [done..|].
    apply list_elem_of_lookup_2, list_elem_of_In, candidates_for_In in Hi as [_ Ha].
    apply list_elem_of_lookup_2, list_elem_of_In, candidates_for_In in Hj as [_ Hb].
    apply same_key_true. split; congruence. }
  rewrite latest_kept_iff. fold scanned. split; split.
  - intros (i & Hi & Hmax). exists i. split; [done|]. intros j d Hj Hs.
    destruct (Nat.le_gt_cases j i) as [|Hgt]; [done|].
    destruct (Hmax j d Hj Hs) as [_ Hle]. specialize (Hle Hgt).
    pose proof (Hkey i j r d Hi Hj Hgt (eq_sym Hs)). lia.
  - intros (i & Hi & Hlast). exists i. split; [done|]. intros j d Hj Hs. split.
    + intros Hlt. by apply (Hkey j i d r).
    + intros Hgt. specialize (Hlast j d Hj Hs). lia.
  - intros (i & Hi & Hmax). exists i. split; [done|]. intros j d Hj Hs. split.
    + intros Hlt. pose proof (Hkey j i d r Hj Hi Hlt Hs). lia.
    + intros Hgt. destruct (Hmax j d Hj Hs) as [_ Hle]. specialize (Hle Hgt).
      pose proof (Hkey i j r d Hi Hj Hgt (eq_sym Hs)). lia.
  - intros (i & Hi & Hmax). exists i. split; [done|]. intros j d Hj Hs. split.
    + intros Hlt. by apply (Hkey j i d r).
    + intros Hgt. destruct (Hmax j d Hj Hs) as [_ Hlt]. specialize (Hlt Hgt).
      pose proof (Hkey i j r d Hi Hj Hgt (eq_sym Hs)). lia.
Qed.

Lemma kept_is_last_of_scope_witness :
  In shop_route (latest_versions_for route_store ("acme", "dev", "header"))
  <-> last_of_scope (candidates_for route_store ("acme", "dev", "header")) shop_route.
Proof.
  apply (proj1 (kept_is_last_of_scope route_store ("acme", "dev", "header") shop_route
                  eq_refl)).
Defined.

(** ** Deletions *)

Section Deletions.

Implicit Types (store : list ConfigDoc) (reg : registry).

Lemma filter_none_in {A} (f : A -> bool) (xs : list A) :
  (forall x, In x xs -> f x = false) -> List.filter f xs = [].
Proof.
  induction xs as [|x xs IH]; [done|]. intros Hf. simpl.
  rewrite Hf by (by left). apply IH. intros y Hy. apply Hf. by right.
Qed.

Lemma candidates_for_delete_component store ck t e :
  candidates_for (delete_component store ck t e) (t, e, ck) = [].
Proof.
  unfold candidates_for, delete_component.
  induction store as [|d store IH]; [done|]. simpl.
  destruct (same_identity t e ck d) eqn:Hd; simpl; [done|]. by rewrite Hd.
Qed.

Lemma same_scope_none store t e ck st sk :
  candidates_for store (t, e, ck) = [] ->
  List.filter (same_scope t e ck st sk) store = [].
Proof.
  intros Hnone. apply filter_none_in. intros d Hd.
  destruct (same_scope t e ck st sk d) eqn:Hs; [|done].
  apply same_scope_true in Hs as [Hid _].
  assert (In d []) as []. rewrite <- Hnone. by apply candidates_for_In.
Qed.

End Deletions.

(** X12: deleting a component resets it: its resolution falls back to the
    registered default (or the empty mapping), its history is empty, and
    the next upsert for any of its scopes gets version 1 again. *)
Theorem delete_component_resets (reg : registry) (store : list ConfigDoc)
    (ck t e : string) (route page : option string) :
  effective_for_component reg (delete_component store ck t e) t e ck route page
  = default_for reg ck /\
  get_history (delete_component store ck t e) ck t e = [] /\
  forall st sk, next_version_for (delete_component store ck t e) t e ck st sk = 1.
Proof.
  pose proof (candidates_for_delete_component store ck t e) as Hnone.
  split; [|split].
  - unfold effective_for_component.
    by rewrite (latest_versions_for_no_candidates _ _ Hnone).
  - unfold get_history. by rewrite Hnone.
  - intros st sk. unfold next_version_for. by rewrite same_scope_none.
Qed.

(** X13: deleting a component twice is the same as deleting it once;
    deleting a component without stored documents leaves the store as it
    is; deletions of two components commute; and the number of documents
    removed is the number of documents the component had. *)
Theorem delete_component_idempotent (store : list ConfigDoc) (ck t e : string) :
  delete_component (delete_component store ck t e) ck t e
  = delete_component store ck t e /\
  (candidates_for store (t, e, ck) = [] -> delete_component store ck t e = store) /\
  (forall ck' t' e',
      delete_component (delete_component store ck t e) ck' t' e'
      = delete_component (delete_component store ck' t' e') ck t e) /\
  (length (delete_component store ck t e) + length (candidates_for store (t, e, ck))
   = length store)%nat.
Proof.
  split; [|split; [|split]].
  - unfold delete_component. by apply filter_filter_implied.
  - intros Hnone. apply filter_all. intros d Hd.
    destruct (same_identity t e ck d) eqn:Hs; [|done].
    assert (In d []) as []. rewrite <- Hnone.
    apply candidates_for_In. split; [done|]. by apply same_identity_true.
  - intros ck' t' e'. unfold delete_component.
    induction store as [|d store IH]; [done|]. simpl.
    destruct (same_identity t e ck d) eqn:H1, (same_identity t' e' ck' d) eqn:H2;
      simpl; rewrite ?H1, ?H2; simpl; by rewrite IH.
  - unfold delete_component, candidates_for.
    rewrite Nat.add_comm. apply filter_length.
Qed.

Lemma delete_component_idempotent_witness :
  delete_component shelf "sidebar" "acme" "dev" = shelf.
Proof.
  apply (proj1 (proj2 (delete_component_idempotent shelf "sidebar" "acme" "dev"))).
  reflexivity.
Defined.

(** ** History *)

Section History.

Lemma ascii_compare_refl (c : ascii) : Ascii.compare c c = Eq.
Proof. apply N.compare_refl. Qed.

Lemma ascii_compare_lt_trans (a b c : ascii) :
  Ascii.compare a b = Lt -> Ascii.compare b c = Lt -> Ascii.compare a c = Lt.
Proof. unfold Ascii.compare. rewrite !N.compare_lt_iff. lia. Qed.

Lemma string_compare_refl (s : string) : String.compare s s = Eq.
Proof. induction s as [|c s IH]; simpl; [done|]. by rewrite ascii_compare_refl. Qed.

Lemma string_compare_lt_trans (a : string) : forall b c,
  String.compare a b = Lt -> String.compare b c = Lt -> String.compare a c = Lt.
Proof.
  induction a as [|x a IH]; intros [|y b] [|z c]; simpl; try done.
  destruct (Ascii.compare x y) eqn:Hxy; try done;
    destruct (Ascii.compare y z) eqn:Hyz; try done; intros Hab Hbc.
  - apply Ascii.compare_eq_iff in Hxy, Hyz. subst.
    rewrite ascii_compare_refl. by apply IH with b.
  - apply Ascii.compare_eq_iff in Hxy. subst. by rewrite Hyz.
  - apply Ascii.compare_eq_iff in Hyz. subst. by rewrite Hxy.
  - by rewrite (ascii_compare_lt_trans x y z).
Qed.

Lemma lex_le_total (a b : string) (r1 r2 : bool) :
  (r1 = false -> r2 = true) ->
  lex_le (String.compare a b) r1 = false -> lex_le (String.compare b a) r2 = true.
Proof.
  intros Hr. rewrite (String.compare_antisym b a).
  destruct (String.compare a b); simpl; auto; discriminate.
Qed.

Lemma lex_le_trans (a b c : string) (r1 r2 r3 : bool) :
  (a = b -> b = c -> r1 = true -> r2 = true -> r3 = true) ->
  lex_le (String.compare a b) r1 = true ->
  lex_le (String.compare b c) r2 = true ->
  lex_le (String.compare a c) r3 = true.
Proof.
  intros Hr.
  destruct (String.compare a b) eqn:Hab; try done;
    destruct (String.compare b c) eqn:Hbc; try done; simpl; intros H1 H2.
  - apply String.compare_eq_iff in Hab, Hbc. subst.
    rewrite string_compare_refl. simpl. by apply Hr.
  - apply String.compare_eq_iff in Hab. subst. by rewrite Hbc.
  - apply String.compare_eq_iff in Hbc. subst. by rewrite Hab.
  - by rewrite (string_compare_lt_trans a b c).
Qed.

Lemma history_le_lex (a b : ConfigDoc) :
  history_le a b
  = lex_le (String.compare (scopeType a) (scopeType b))
      (lex_le (String.compare (scopeKey a) (scopeKey b))
         (version a <=? version b)%Z).
Proof.
  unfold history_le, lex_le.
  by destruct (String.compare (scopeType a) (scopeType b)),
              (String.compare (scopeKey a) (scopeKey b)).
Qed.

Lemma history_le_total (a b : ConfigDoc) :
  history_le a b = false -> history_le b a = true.
Proof.
  rewrite !history_le_lex. apply lex_le_total. apply lex_le_total.
  rewrite Z.leb_gt, Z.leb_le. lia.
Qed.

Lemma history_le_trans (a b c : ConfigDoc) :
  history_le a b = true -> history_le b c = true -> history_le a c = true.
Proof.
  rewrite !history_le_lex. apply lex_le_trans. intros _ _.
  apply lex_le_trans. intros _ _. rewrite !Z.leb_le. lia.
Qed.

End History.

(** X14: the history of a component lists every stored document of the
    identity, all versions of all scopes, ordered by scope type, then scope
    key, then version. *)
Theorem get_history_complete_sorted (store : list ConfigDoc) (ck t e : string) :
  get_history store ck t e ≡ₚ candidates_for store (t, e, ck) /\
  (forall d, In d (get_history store ck t e)
             <-> In d store /\ (tenant d, env d, componentKey d) = (t, e, ck)) /\
  StronglySorted (fun a b => history_le a b = true) (get_history store ck t e) /\
  forall (i j : nat) a b,
    get_history store ck t e !! i = Some a ->
    get_history store ck t e !! j = Some b ->
    (i < j)%nat -> scope_of a = scope_of b -> version a <= version b.
Proof.
  assert (Hperm : get_history store ck t e ≡ₚ candidates_for store (t, e, ck))
    by apply sorted_by_perm.
  assert (Hsorted : StronglySorted (fun a b => history_le a b = true)
                                   (get_history store ck t e)).
  { apply (sorted_by_strongly_sorted history_le).
    - exact history_le_total.
    - exact history_le_trans. }
  split; [done|]. split; [|split; [done|]].
  - intros d. rewrite <- candidates_for_In, <- !list_elem_of_In. by rewrite Hperm.
  - intros i j a b Hi Hj Hij Hs.
    clear Hperm. revert i j Hi Hj Hij.
    induction Hsorted as [|x l Hl IH Hx]; intros i j Hi Hj Hij; [done|].
    destruct i as [|i], j as [|j]; try lia; simpl in Hi, Hj.
    + injection Hi as ->. rewrite Forall_forall in Hx.
      specialize (Hx b (list_elem_of_lookup_2 _ _ _ Hj)). simpl in Hx.
      unfold history_le in Hx. unfold scope_of in Hs. injection Hs as Hst Hsk.
      rewrite Hst, Hsk, !string_compare_refl in Hx. by apply Z.leb_le.
    + apply (IH i j); [done..|lia].
Qed.

Lemma get_history_complete_sorted_witness :
  In tie_second (get_history tie_store "header" "acme" "dev").
Proof.
  apply (proj1 (proj2 (get_history_complete_sorted tie_store "header" "acme" "dev"))).
  split; [right; left; reflexivity|reflexivity].
Defined.

(** X15: an accepted upsert adds exactly one entry to the history of its
    identity, the entry with the version it answers with. *)
Theorem upsert_extends_history (V : Draft202012Validator) (reg : registry)
    (store : list ConfigDoc) (ck : string) (r : Upsert) :
  validate_value V reg ck (req_value r) = None ->
  exists doc,
    (upsert_component V reg store ck r).1 = Ok (version doc) /\
    value doc = req_value r /\
    get_history (upsert_component V reg store ck r).2 ck (req_tenant r) (req_env r)
    ≡ₚ doc :: get_history store ck (req_tenant r) (req_env r).
Proof.
  intros Hv. rewrite (upsert_component_accepted V reg store ck r Hv). cbv zeta.
  match goal with |- context [(store ++ [?x])%list] => exists x end.
  split; [reflexivity|]. split; [reflexivity|].
  unfold get_history. rewrite !sorted_by_perm. cbn [snd].
  rewrite candidates_for_app.
  unfold candidates_for at 2. cbn [List.filter]. unfold same_identity. cbn [tenant env componentKey].
  rewrite !String.eqb_refl. cbn [andb].
  by rewrite Permutation_app_comm.
Qed.

Lemma upsert_extends_history_witness :
  exists doc,
    (upsert_component title_validator sample_registry shelf "card" titled).1
    = Ok (version doc) /\
    get_history (upsert_component title_validator sample_registry shelf "card" titled).2
      "card" "acme" "dev"
    ≡ₚ doc :: get_history shelf "card" "acme" "dev".
Proof.
  destruct (upsert_extends_history title_validator sample_registry shelf "card" titled
              eq_refl) as (doc & Hresp & _ & Hhist).
  exists doc. split; [exact Hresp|exact Hhist].
Defined.

(** ** All components at once *)

Section AllComponents.

Implicit Types (store : list ConfigDoc) (reg : registry).

Lemma known_keys_fold store t e : forall (keys : gset string) k,
  k ∈ fold_left
        (fun keys d =>
           if String.eqb (tenant d) t && String.eqb (env d) e
           then keys ∪ {[ componentKey d ]} else keys)
        store keys
  <-> k ∈ keys \/
      exists d, In d store /\ tenant d = t /\ env d = e /\ componentKey d = k.
Proof.
  induction store as [|d store IH]; intros keys k; simpl.
  - split; [by left|]. by intros [?|(? & [] & _)].
  - rewrite IH. split.
    + intros [Hk|(d' & Hd' & H)]; [|right; exists d'; by auto].
      destruct (String.eqb (tenant d) t && String.eqb (env d) e) eqn:Hd; [|by left].
      apply elem_of_union in Hk as [Hk|Hk%elem_of_singleton]; [by left|].
      apply andb_true_iff in Hd as [Ht%String.eqb_eq He%String.eqb_eq].
      right. exists d. auto.
    + intros [Hk|(d' & [<-|Hd'] & Ht & He & Hc)].
      * left. destruct (_ && _); [|done]. apply elem_of_union. by left.
      * left. rewrite Ht, He, !String.eqb_refl. simpl.
        apply elem_of_union. right. by apply elem_of_singleton.
      * right. exists d'. auto.
Qed.

Lemma known_keys_spec reg store t e k :
  k ∈ known_keys reg store t e
  <-> is_Some (reg !! k) \/
      exists d, In d store /\ (tenant d, env d, componentKey d) = (t, e, k).
Proof.
  unfold known_keys. rewrite known_keys_fold, elem_of_dom. split.
  - intros [?|(d & Hd & <- & <- & <-)]; [by left|]. right. by exists d.
  - intros [?|(d & Hd & [= <- <- <-])]; [by left|]. right. by exists d.
Qed.

Lemma lookup_effective_all reg store t e route page k v :
  effective_all reg store t e route page !! k = Some v
  <-> k ∈ known_keys reg store t e
      /\ v = effective_for_component reg store t e k route page.
Proof.
  unfold effective_all. rewrite lookup_set_to_map; [|by intros y y' _ _ H].
  split.
  - intros (y & Hy & [= -> ->]). done.
  - intros [Hk ->]. by exists k.
Qed.

End AllComponents.

(** X16: the listing of all components has an entry for every registered
    component and for every component with a stored document of the tenant
    and environment, and for no other; each entry is the resolution of that
    component in the same context. *)
Theorem effective_all_entries (reg : registry) (store : list ConfigDoc)
    (t e : string) (route page : option string) (k : string) :
  (is_Some (effective_all reg store t e route page !! k)
   <-> is_Some (reg !! k) \/
       exists d, In d store /\ (tenant d, env d, componentKey d) = (t, e, k)) /\
  (forall v, effective_all reg store t e route page !! k = Some v ->
             v = effective_for_component reg store t e k route page).
Proof.
  split.
  - rewrite <- known_keys_spec. split.
    + intros [v Hv]. by apply lookup_effective_all in Hv as [? _].
    + intros Hk. eexists. by apply lookup_effective_all.
  - intros v Hv. by apply lookup_effective_all in Hv as [_ ?].
Qed.

Lemma effective_all_entries_witness :
  effective_all sample_registry shelf "acme" "dev" None (Some "home") !! "header"
  = Some (JObj {[ "a" := JNum 1; "b" := JNum 2 ]}).
Proof.
  assert (H : is_Some (effective_all sample_registry shelf "acme" "dev" None (Some "home")
                         !! "header")).
  { apply (proj1 (effective_all_entries sample_registry shelf "acme" "dev" None
                    (Some "home") "header")).
    right. eexists. split; [left; reflexivity|reflexivity]. }
  destruct H as [v Hv]. rewrite Hv. f_equal.
  apply (proj2 (effective_all_entries sample_registry shelf "acme" "dev" None
                  (Some "home") "header") v Hv).
Defined.

(** X17: for a tenant and environment without stored documents, in
    particular after [delete_all], the listing has exactly the registered
    components, each with its default. *)
Theorem effective_all_without_documents (reg : registry) (store : list ConfigDoc)
    (t e : string) (route page : option string) (k : string) :
  (forall d, In d store -> (tenant d, env d) <> (t, e)) ->
  effective_all reg store t e route page !! k
  = (fun _ => default_for reg k) <$> reg !! k.
Proof.
  intros Hnone.
  assert (Hc : candidates_for store (t, e, k) = []).
  { apply filter_none_in. intros d Hd. apply same_identity_false.
    intros [= Ht He _]. by apply (Hnone d Hd); rewrite Ht, He. }
  assert (Heff : effective_for_component reg store t e k route page = default_for reg k).
  { unfold effective_for_component.
    by rewrite (latest_versions_for_no_candidates _ _ Hc). }
  destruct (reg !! k) as [entry|] eqn:Hreg; simpl.
  - apply lookup_effective_all. split; [|done].
    apply known_keys_spec. left. by rewrite Hreg.
  - destruct (effective_all reg store t e route page !! k) as [v|] eqn:Hv; [|done].
    apply lookup_effective_all in Hv as [Hk _].
    apply known_keys_spec in Hk as [[? Hk]|(d & Hd & [= Ht He _])]; [congruence|].
    destruct (Hnone d Hd). by rewrite Ht, He.
Qed.

Lemma effective_all_without_documents_witness :
  effective_all sample_registry (delete_all shelf) "acme" "dev" None None !! "banner"
  = Some layer_global.
Proof.
  rewrite (effective_all_without_documents sample_registry (delete_all shelf)
             "acme" "dev" None None "banner").
  - reflexivity.
  - intros d [].
Defined.

(** X18: validation passes exactly when the component has no registry
    entry, or its entry has no schema, or the validator reports nothing for
    the schema; otherwise it returns one message per reported violation. *)
Theorem validate_value_none_iff (V : Draft202012Validator) (reg : registry)
    (ck : string) (v : json) :
  (validate_value V reg ck v = None <->
   forall (entry : gmap string json) schema,
     reg !! ck = Some entry -> entry !! "schema" = Some schema ->
     iter_errors V schema v = []) /\
  (forall errs (entry : gmap string json) schema,
     validate_value V reg ck v = Some errs ->
     reg !! ck = Some entry -> entry !! "schema" = Some schema ->
     length errs = length (iter_errors V schema v)).
Proof.
  unfold validate_value.
  destruct (reg !! ck) as [entry|] eqn:Hreg; [|by split].
  case_bool_decide as Hempty.
  { subst entry. split; [|done]. split; [|done].
    intros _ entry schema [= <-]. by rewrite lookup_empty. }
  destruct (entry !! "schema") as [schema|] eqn:Hschema.
  2:{ split; [|done]. split; [|done]. intros _ entry' schema' [= <-]. congruence. }
  pose proof (sorted_by_perm (fun a b => path_le V (err_path a) (err_path b))
                (iter_errors V schema v)) as Hperm.
  destruct (sorted_by _ (iter_errors V schema v)) as [|x xs] eqn:Hs.
  - apply Permutation_nil in Hperm. split; [|done]. split; [|done].
    intros _ entry' schema' [= <-] Hs'. congruence.
  - split.
    + split; [done|]. intros H. rewrite (H entry schema eq_refl Hschema) in Hperm.
      symmetry in Hperm. by apply Permutation_nil_cons in Hperm.
    + intros errs entry' schema' [= <-] [= <-] Hs'.
      assert (schema' = schema) as -> by congruence.
      simpl. rewrite length_map. by rewrite <- Hperm.
Qed.

Lemma validate_value_none_iff_witness :
  length ["[]: 'title' is a required property"]
  = length (iter_errors title_validator
              (JObj {[ "required" := JArr [JStr "title"] ]}) (req_value untitled)).
Proof.
  apply (proj2 (validate_value_none_iff title_validator sample_registry "card"
                  (req_value untitled))
           _ {[ "schema" := JObj {[ "required" := JArr [JStr "title"] ]} ]});
    reflexivity.
Defined.

(** ** Exact and catch-all route patterns *)

Section ExactPatterns.

Lemma match_route_plain (pattern route : string) :
  plain pattern = true -> match_route pattern route = true <-> route = pattern.
Proof.
  intros Hp. unfold match_route, fnmatch, fnmatchcase.
  rewrite <- (app_nil_r (list_ascii_of_string pattern)).
  rewrite translate_plain by exact Hp.
  rewrite compress_literal, gmatch_literal. simpl. split.
  - intros (rest & Hr & Hrest). destruct rest; [|done].
    rewrite app_nil_r in Hr. by apply list_ascii_of_string_inj.
  - intros ->. exists []. by rewrite app_nil_r.
Qed.

End ExactPatterns.

(** X19: a route pattern without [*], [?] and [[] applies to one route
    only, the route equal to the pattern; no prefix or other partial match
    is made. *)
Theorem match_route_exact (pattern route : string) :
  plain pattern = true -> match_route pattern route = true <-> route = pattern.
Proof. apply match_route_plain. Qed.

Lemma match_route_exact_witness :
  match_route "/about" "/about" = true <-> "/about" = "/about".
Proof. apply (match_route_exact "/about" "/about"). reflexivity. Defined.

(** X20: the pattern ["*"] matches every route, so a route document with
    that pattern is selected for every non-empty route; for the empty
    route nothing is selected, whatever the patterns. *)
Theorem catch_all_route_selected (docs : list ConfigDoc) (d : ConfigDoc) (route : string) :
  (forall r, match_route "*" r = true) /\
  (In d docs -> scopeType d = "route" -> scopeKey d = "*" -> route <> "" ->
   In d (routes_for docs (Some route))) /\
  routes_for docs (Some "") = [] /\ routes_for docs None = [].
Proof.
  split; [|split; [|split]].
  - intros r. apply (gmatch_star_only (list_ascii_of_string r)).
  - intros Hd Hty Hkey Hr. apply filter_In. split; [done|].
    rewrite Hty, Hkey. simpl.
    replace (String.eqb route "") with false
      by (symmetry; by apply String.eqb_neq).
    apply (gmatch_star_only (list_ascii_of_string route)).
  - apply filter_none. intros x. simpl. by rewrite andb_false_r.
  - apply filter_none. intros x. simpl. by rewrite andb_false_r.
Qed.

Lemma catch_all_route_selected_witness :
  In catch_all_route (routes_for route_store (Some "/anything/at/all")).
Proof.
  apply (proj1 (proj2 (catch_all_route_selected route_store catch_all_route
                         "/anything/at/all"))).
  - right. right. left. reflexivity.
  - reflexivity.
  - reflexivity.
  - discriminate.
Defined.



(** ** Old versions and first writes *)

Section Compaction.

Implicit Types (L : list ((string * string) * ConfigDoc)) (l store : list ConfigDoc).

Lemma latest_kept_nodup store identity :
  NoDup (map scope_of (latest_versions_for store identity)).
Proof.
  pose proof (latest_inv_fold (candidates_for store identity) [] [] latest_inv_init)
    as (Hnd & Hget & _).
  simpl in Hnd, Hget. unfold latest_versions_for.
  set (L := fold_left latest_step (candidates_for store identity) []) in *.
  replace (map scope_of (map snd L)) with (map fst L); [done|].
  rewrite map_map. apply map_ext_in. intros [k r] Hkr. simpl.
  apply In_dict_get in Hkr; [|done]. by destruct (Hget _ _ Hkr).
Qed.

Lemma dict_set_fresh k d L : dict_get k L = None -> dict_set k d L = (L ++ [(k, d)])%list.
Proof.
  induction L as [|[k1 d1] L IH]; simpl; [done|].
  destruct (scope_eqb k k1); [done|]. intros H. by rewrite IH.
Qed.

Lemma latest_fold_fresh l : forall L,
  NoDup (map scope_of l) ->
  (forall d, In d l -> dict_get (scope_of d) L = None) ->
  fold_left latest_step l L = (L ++ map (fun d => (scope_of d, d)) l)%list.
Proof.
  induction l as [|d l IH]; intros L Hnd Hfresh; simpl.
  - by rewrite app_nil_r.
  - apply NoDup_cons in Hnd as [Hd Hnd].
    unfold latest_step at 2. rewrite (Hfresh d) by (by left).
    rewrite dict_set_fresh by (apply Hfresh; by left).
    rewrite IH; [by rewrite <- app_assoc|done|].
    intros d' Hd'.
    rewrite <- (dict_set_fresh (scope_of d) d L) by (apply Hfresh; by left).
    rewrite dict_get_set. rewrite bool_decide_eq_false_2; [apply Hfresh; by right|].
    intros Heq. apply Hd. rewrite <- Heq. apply list_elem_of_In, in_map, Hd'.
Qed.

Lemma latest_versions_for_kept store identity :
  latest_versions_for (latest_versions_for store identity) identity
  = latest_versions_for store identity.
Proof.
  set (kept := latest_versions_for store identity).
  assert (Hc : candidates_for kept identity = kept).
  { destruct identity as [[t e] c]. apply filter_all. intros d Hd.
    apply latest_kept_scanned, candidates_for_In in Hd as [_ Hid].
    by apply same_identity_true. }
  unfold latest_versions_for at 1. rewrite Hc.
  rewrite latest_fold_fresh; [|apply latest_kept_nodup|done].
  simpl. rewrite map_map. simpl. apply map_id.
Qed.

End Compaction.

(** X22: superseded versions have no influence: reducing the store of an
    identity to the documents the reduction keeps, and resolving against
    that, gives the same reduction and the same resolution. *)
Theorem resolution_ignores_old_versions (reg : registry) (store : list ConfigDoc)
    (t e ck : string) (route page : option string) :
  latest_versions_for (latest_versions_for store (t, e, ck)) (t, e, ck)
  = latest_versions_for store (t, e, ck) /\
  effective_for_component reg (latest_versions_for store (t, e, ck)) t e ck route page
  = effective_for_component reg store t e ck route page.
Proof.
  pose proof (latest_versions_for_kept store (t, e, ck)) as H.
  split; [done|].
  unfold effective_for_component. by rewrite H.
Qed.

(** X23: the first accepted upsert of an identity, made for the global
    scope, is visible at once: every later resolution of the component, in
    any context, is the default merged with the submitted value. *)
Theorem first_global_upsert_resolves (V : Draft202012Validator) (reg : registry)
    (store : list ConfigDoc) (ck : string) (r : Upsert) (route page : option string) :
  validate_value V reg ck (req_value r) = None ->
  candidates_for store (req_tenant r, req_env r, ck) = [] ->
  req_scopeType r = "global" ->
  effective_for_component reg (upsert_component V reg store ck r).2
    (req_tenant r) (req_env r) ck route page
  = deep_merge (default_for reg ck) (req_value r).
Proof.
  intros Hv Hnone Hglobal.
  rewrite (upsert_component_accepted V reg store ck r Hv). cbv zeta. cbn [snd].
  unfold effective_for_component, latest_versions_for.
  rewrite candidates_for_app, Hnone. unfold candidates_for. cbn [List.filter app].
  unfold same_identity. cbn [tenant env componentKey].
  rewrite !String.eqb_refl. cbn [andb fold_left].
  unfold latest_step. cbn [dict_get dict_set map snd List.filter scopeType].
  rewrite Hglobal. reflexivity.
Qed.

Lemma first_global_upsert_resolves_witness :
  effective_for_component sample_registry
    (upsert_component title_validator sample_registry shelf "banner" first_banner).2
    "acme" "dev" "banner" (Some "/shop/42") (Some "home")
  = JObj {[ "a" := JNum 1; "b" := JNum 1; "title" := JStr "Sale" ]}.
Proof.
  etransitivity.
  - apply (first_global_upsert_resolves title_validator sample_registry shelf "banner"
             first_banner (Some "/shop/42") (Some "home")); reflexivity.
  - reflexivity.
Defined.
